(** * Laplace-Beltrami matrix assembly (mindboggle/shapes/laplace_beltrami.py)

    A shallow embedding of [computeAB] and [fem_laplacian].

    Numeric model.  The source computes in float64 through numpy.  Here a
    float is a real number ([R]): rounding, overflow and the non-finite
    values (inf, nan) are not represented.  numpy's float division never
    raises (x/0 gives inf or nan and a warning), so division is the total
    [Rdiv]; results that depend on the value of a quotient by zero are never
    stated.  Python exceptions are the [Raise] outcomes of [result]. *)

From Stdlib Require Import Ascii String.
From Stdlib Require Import Reals List ZArith Lia Lra Bool FinFun Permutation.
Import ListNotations.
Open Scope R_scope.

Set Implicit Arguments.

(** ** Exceptions and the error monad *)

Inductive exn : Type :=
| IndexError
| ValueError
| SolverError.

Inductive result (A : Type) : Type :=
| Ok (a : A)
| Raise (e : exn).

Arguments Ok {A} a.
Arguments Raise {A} e.

Definition bind {A B : Type} (c : result A) (k : A -> result B) : result B :=
  match c with
  | Ok a => k a
  | Raise e => Raise e
  end.

Notation "x <- c ;; k" := (bind c (fun x => k))
  (at level 61, c at next level, right associativity).

Fixpoint mapM {A B : Type} (f : A -> result B) (l : list A) : result (list B) :=
  match l with
  | [] => Ok []
  | x :: xs => y <- f x ;; ys <- mapM f xs ;; Ok (y :: ys)
  end.

(** ** numpy arrays as nested lists *)

Definition array1 := list R.
Definition array2 := list (list R).
Definition array3 := list (list (list R)).

(** [np.array(a)] of a list of lists is two-dimensional when [a] is not
    empty and its rows have one length; otherwise it is a one-dimensional
    array (of floats when empty, of objects when ragged). *)
Definition is_2d {X : Type} (a : list (list X)) : bool :=
  match a with
  | [] => false
  | r :: rs => forallb (fun r' => Nat.eqb (length r') (length r)) rs
  end.

Definition get {X : Type} (l : list X) (n : nat) : result X :=
  match nth_error l n with
  | Some x => Ok x
  | None => Raise IndexError
  end.

(** [a[:, c]] *)
Definition column {X : Type} (c : nat) (a : list (list X)) : result (list X) :=
  if is_2d a then mapM (fun r => get r c) a else Raise IndexError.

(** An index [i] into an axis of length [n]: numpy accepts [-n <= i < n]
    and counts negative ones from the end. *)
Definition norm_index (n : nat) (i : Z) : result nat :=
  if ((0 <=? i) && (i <? Z.of_nat n))%Z then Ok (Z.to_nat i)
  else if ((- Z.of_nat n <=? i) && (i <? 0))%Z then Ok (Z.to_nat (i + Z.of_nat n))
  else Raise IndexError.

(** [a[idx, :]] *)
Definition take_rows {X : Type} (a : list (list X)) (idx : list Z)
  : result (list (list X)) :=
  if is_2d a
  then mapM (fun i => n <- norm_index (length a) i ;; get a n) idx
  else Raise IndexError.

Fixpoint zipWith {A B C : Type} (f : A -> B -> C) (l1 : list A) (l2 : list B)
  : list C :=
  match l1, l2 with
  | x :: xs, y :: ys => f x y :: zipWith f xs ys
  | _, _ => []
  end.

(** Elementwise operations on arrays of one shape. *)
Definition ew2 (f : R -> R -> R) (a b : array2) : array2 :=
  zipWith (zipWith f) a b.
Definition ew3 (f : R -> R -> R) (a b : array3) : array3 :=
  zipWith (zipWith (zipWith f)) a b.
Definition map3 (f : R -> R) (a : array3) : array3 :=
  map (map (map f)) a.

(** [np.sum] of a one-dimensional array, accumulated from the left. *)
Definition Rsum (l : list R) : R := fold_left Rplus l 0.

(** [np.sum(a, axis=1)] *)
Definition sum_axis1 (a : array2) : array1 := map Rsum a.

(** [np.mean] *)
Definition np_mean (l : array1) : R := Rsum l / INR (length l).

(** [np.cross] on two arrays of row vectors.  Rows of three components give
    the vector product; numpy rejects the other widths (a width of two
    yields scalars, which [np.sum(..., axis=1)] then rejects). *)
Definition cross_row (a b : list R) : result (list R) :=
  match a, b with
  | [a0; a1; a2], [b0; b1; b2] =>
      Ok [a1 * b2 - a2 * b1; a2 * b0 - a0 * b2; a0 * b1 - a1 * b0]
  | _, _ => Raise ValueError
  end.

Definition np_cross (a b : array2) : result array2 :=
  mapM (fun ab => cross_row (fst ab) (snd ab)) (combine a b).

(** [np.ones((3,3))], [np.eye(3)] *)
Definition ones33 : list (list R) := [[1; 1; 1]; [1; 1; 1]; [1; 1; 1]].
Definition eye3 : list (list R) := [[1; 0; 0]; [0; 1; 0]; [0; 0; 1]].

(** [np.tile(x, (3,1))] and [np.transpose] of a two-dimensional array. *)
Definition tile31 {X : Type} (x : list X) : list (list X) := [x; x; x].

Fixpoint transpose {X : Type} (a : list (list X)) : list (list X) :=
  match a with
  | [] => []
  | [r] => map (fun x => [x]) r
  | r :: rs => zipWith cons r (transpose rs)
  end.

(** [a.flatten()] of a three-dimensional array. *)
Definition flatten {X : Type} (a : list (list (list X))) : list X :=
  concat (map (@concat X) a).

(** ** scipy.sparse: matrices built from (row, column, value) triplets

    [csr_matrix((data, (row, col)))] keeps the triplets; an entry of the
    matrix is the sum of the values stored under its (row, column) pair, as
    the conversion to the compressed format sums duplicates.  With no
    [shape] argument the dimensions are the largest row and column index
    plus one. *)

Record csr : Type := mk_csr {
  shape : Z * Z;
  triplets : list (Z * Z * R)
}.

(** [a.max()] of a non-empty integer array. *)
Definition zmax (l : list Z) : Z :=
  match l with
  | [] => 0%Z
  | x :: xs => fold_left Z.max xs x
  end.

Definition csr_matrix (data : list R) (row col : list Z) : result csr :=
  if negb (Nat.eqb (length row) (length data) && Nat.eqb (length col) (length data))
  then Raise ValueError
  else if Nat.eqb (length row) 0
  then Raise ValueError
  else if existsb (fun i => (i <? 0)%Z) row || existsb (fun j => (j <? 0)%Z) col
  then Raise ValueError
  else Ok (mk_csr (zmax row + 1, zmax col + 1)%Z (combine (combine row col) data)).

Definition hit (i j : Z) (t : Z * Z * R) : R :=
  let '(r, c, v) := t in if ((r =? i) && (c =? j))%Z then v else 0.

(** [M[i, j]] *)
Definition entry (M : csr) (i j : Z) : R :=
  Rsum (map (hit i j) (triplets M)).

Definition zrange (n : Z) : list Z := map Z.of_nat (seq 0 (Z.to_nat n)).

(** [M.sum()]: the sum of the entries over the whole shape. *)
Definition mat_sum (M : csr) : R :=
  Rsum (map (fun i => Rsum (map (fun j => entry M i j) (zrange (snd (shape M)))))
            (zrange (fst (shape M)))).

(** ** computeAB *)

(** Linear local matrices on the unit triangle. *)
Definition tB_unit : list (list R) :=
  map (map (fun x => x / 24)) (zipWith (zipWith Rplus) ones33 eye3).

Definition tA00_unit : list (list R) :=
  [[ 0.5; -0.5; 0.0];
   [-0.5;  0.5; 0.0];
   [ 0.0;  0.0; 0.0]].

Definition tA11_unit : list (list R) :=
  [[ 0.5; 0.0; -0.5];
   [ 0.0; 0.0;  0.0];
   [-0.5; 0.0;  0.5]].

Definition tA0110_unit : list (list R) :=
  [[ 1.0; -0.5; -0.5];
   [-0.5;  0.0;  0.5];
   [-0.5;  0.5;  0.0]].

(** The inner helper of [computeAB]: one 3x3 block of copies of [x] for each
    [x] of the array. *)
Definition reshape_and_repeat (A : array1) : array3 :=
  map (fun x => map (map (fun o => o * x)) ones33) A.

(** The local variables of [computeAB] once the local matrices are built
    (source lines 152 to 162). *)
Record locals : Type := mk_locals {
  vol_raw : array1;
  vol_mean : R;
  vol_sub : array1;
  localB : array3;
  localA : array3
}.

Definition computeAB_locals (points : list (list R)) (faces : list (list Z))
  : result locals :=
  let nfaces := length faces in
  let tB := repeat tB_unit nfaces in
  let tA00 := repeat tA00_unit nfaces in
  let tA11 := repeat tA11_unit nfaces in
  let tA0110 := repeat tA0110_unit nfaces in
  f0 <- column 0 faces ;;
  v1 <- take_rows points f0 ;;
  f1 <- column 1 faces ;;
  v2 <- take_rows points f1 ;;
  f2 <- column 2 faces ;;
  v3 <- take_rows points f2 ;;
  let v2mv1 := ew2 Rminus v2 v1 in
  let v3mv1 := ew2 Rminus v3 v1 in
  let a0 := reshape_and_repeat (sum_axis1 (ew2 Rmult v3mv1 v3mv1)) in
  let a1 := reshape_and_repeat (sum_axis1 (ew2 Rmult v2mv1 v2mv1)) in
  let a0110 := reshape_and_repeat (sum_axis1 (ew2 Rmult v2mv1 v3mv1)) in
  cr <- np_cross v2mv1 v3mv1 ;;
  let vol0 := map sqrt (sum_axis1 (ew2 Rmult cr cr)) in
  let vmean := np_mean vol0 in
  let vol1 := map (fun x => if Req_dec_T x 0 then vmean else x) vol0 in
  let vol := reshape_and_repeat vol1 in
  let lB := ew3 Rmult vol tB in
  let lA := ew3 Rmult (map3 (fun x => 1.0 / x) vol)
              (ew3 Rminus (ew3 Rplus (ew3 Rmult a0 tA00) (ew3 Rmult a1 tA11))
                          (ew3 Rmult a0110 tA0110)) in
  Ok (mk_locals vol0 vmean vol1 lB lA).

Definition computeAB (points : list (list R)) (faces : list (list Z))
  : result (csr * csr) :=
  loc <- computeAB_locals points faces ;;
  let J := map (fun x => tile31 x) faces in
  let I := map (fun x => transpose (tile31 x)) faces in
  let J_new := flatten I in
  let I_new := flatten J in
  let lA := flatten (localA loc) in
  let lB := flatten (localB loc) in
  A <- csr_matrix lA I_new J_new ;;
  B <- csr_matrix lB I_new J_new ;;
  Ok (A, B).

(** ** fem_laplacian

    Printing and the calls to [computeAB] and to the eigensolver are
    recorded as events, in the order in which they happen. *)

Inductive event : Type :=
| Print (s : string)
| Call_computeAB
| Call_eigsh.

Definition io (A : Type) : Type := (list event * result A)%type.

Definition io_ret {A : Type} (a : A) : io A := ([], Ok a).

Definition io_bind {A B : Type} (c : io A) (k : A -> io B) : io B :=
  match c with
  | (t, Ok a) => let '(t', r) := k a in (t ++ t', r)
  | (t, Raise e) => (t, Raise e)
  end.

Definition emit {A : Type} (ev : event) (c : result A) : io A := ([ev], c).

Notation "x <~ c ;; k" := (io_bind c (fun x => k))
  (at level 61, c at next level, right associativity).

(** What [fem_laplacian] returns: a numpy array of integers on the short
    path, a Python list of floats otherwise. *)
Inductive pyseq : Type :=
| NdArray_int (l : list Z)
| PyList_float (l : list R).

(** The selection mode [which] of [scipy.sparse.linalg.eigsh]. *)
Inductive which_mode : Type := LM | SM | LA | SA | BE.

Section FemLaplacian.

(** [eigsh(A, k, M, which)] of scipy: eigenvalues and eigenvectors, or an
    exception of the solver. *)
Variable eigsh : csr -> nat -> csr -> which_mode -> result (list R * list (list R)).

Definition fem_laplacian (points : list (list R)) (faces : list (list Z))
  : io pyseq :=
  let npoints := length points in
  if (npoints <? 5)%nat then
    _ <~ emit (Print "The input size is too small to compute spectra. Skipped.")
              (Ok tt) ;;
    io_ret (NdArray_int [-1; -1; -1; -1; -1]%Z)
  else
    AB <~ emit Call_computeAB (computeAB points faces) ;;
    ev <~ emit Call_eigsh (eigsh (fst AB) 3 (snd AB) SM) ;;
    io_ret (PyList_float (fst ev)).

End FemLaplacian.

(** ** Triangle geometry, as the specification words it *)

Definition vec3 : Type := (R * R * R)%type.

Definition vsub (p q : vec3) : vec3 :=
  let '(px, py, pz) := p in let '(qx, qy, qz) := q in (px - qx, py - qy, pz - qz).

Definition dot (p q : vec3) : R :=
  let '(px, py, pz) := p in let '(qx, qy, qz) := q in px * qx + py * qy + pz * qz.

Definition cross (p q : vec3) : vec3 :=
  let '(px, py, pz) := p in let '(qx, qy, qz) := q in
  (py * qz - pz * qy, pz * qx - px * qz, px * qy - py * qx).

Definition norm (p : vec3) : R := sqrt (dot p p).

(** The vertex [i] of the mesh and the three vertices of a face. *)
Definition vertex (points : list (list R)) (i : Z) : vec3 :=
  match nth (Z.to_nat i) points [] with
  | [x; y; z] => (x, y, z)
  | _ => (0, 0, 0)
  end.

Definition corner (points : list (list R)) (face : list Z) (k : nat) : vec3 :=
  vertex points (nth k face 0%Z).

Definition e1 (points : list (list R)) (face : list Z) : vec3 :=
  vsub (corner points face 1) (corner points face 0).
Definition e2 (points : list (list R)) (face : list Z) : vec3 :=
  vsub (corner points face 2) (corner points face 0).

(** Twice the area of the triangle. *)
Definition tri_vol (points : list (list R)) (face : list Z) : R :=
  norm (cross (e1 points face) (e2 points face)).

Definition tri_area (points : list (list R)) (face : list Z) : R :=
  tri_vol points face / 2.

Definition total_area (points : list (list R)) (faces : list (list Z)) : R :=
  Rsum (map (tri_area points) faces).

(** Dense 3x3 matrix algebra. *)
Definition mscale (c : R) (m : list (list R)) : list (list R) :=
  map (map (fun x => c * x)) m.
Definition madd (m n : list (list R)) : list (list R) := zipWith (zipWith Rplus) m n.
Definition msub (m n : list (list R)) : list (list R) := zipWith (zipWith Rminus) m n.

Definition mass_block (vol : R) : list (list R) := mscale vol tB_unit.

Definition stiffness_block (vol a0 a1 a0110 : R) : list (list R) :=
  mscale (1 / vol)
    (msub (madd (mscale a0 tA00_unit) (mscale a1 tA11_unit))
          (mscale a0110 tA0110_unit)).

(** A mesh the code accepts: some face, three coordinates per point, three
    indices per face, each index within [0, N). *)
Definition valid_mesh (points : list (list R)) (faces : list (list Z)) : bool :=
  negb (Nat.eqb (length faces) 0)
  && forallb (fun p => Nat.eqb (length p) 3) points
  && forallb (fun f => Nat.eqb (length f) 3
                       && forallb (fun i => (0 <=? i) && (i <? Z.of_nat (length points)))%Z f)
             faces.

(** The scalars of one triangle. *)
Definition tri_a0 (points : list (list R)) (face : list Z) : R :=
  dot (e2 points face) (e2 points face).
Definition tri_a1 (points : list (list R)) (face : list Z) : R :=
  dot (e1 points face) (e1 points face).
Definition tri_a0110 (points : list (list R)) (face : list Z) : R :=
  dot (e1 points face) (e2 points face).

(** The mean of [tri_vol] over every triangle of the mesh, and the volume a
    triangle ends up with: its own unless that is zero. *)
Definition mesh_vol_mean (points : list (list R)) (faces : list (list Z)) : R :=
  np_mean (map (tri_vol points) faces).

Definition eff_vol (points : list (list R)) (faces : list (list Z))
  (face : list Z) : R :=
  if Req_dec_T (tri_vol points face) 0
  then mesh_vol_mean points faces
  else tri_vol points face.

(** Every vertex index of [points] occurs in some face. *)
Definition covered (points : list (list R)) (faces : list (list Z)) : bool :=
  forallb (fun v => existsb (fun f => existsb (Z.eqb v) f) faces)
          (zrange (Z.of_nat (length points))).

(** ** Assembly as the specification words it

    A dense matrix is a function of the two indices.  The entry of a local
    block at [(r, c)] is added to the global entry at [(idx[r], idx[c])],
    one triangle after the other. *)

Definition dense : Type := Z -> Z -> R.

Definition add_at (M : dense) (r c : Z) (v : R) : dense :=
  fun i j => if ((i =? r) && (j =? c))%Z then M i j + v else M i j.

Definition scatter_block (M : dense) (idx : list Z) (blk : list (list R)) : dense :=
  fold_left
    (fun M1 r =>
       fold_left
         (fun M2 c => add_at M2 (nth r idx 0%Z) (nth c idx 0%Z) (nth c (nth r blk []) 0))
         [0; 1; 2]%nat M1)
    [0; 1; 2]%nat M.

Definition assemble_spec (faces : list (list Z)) (blocks : array3) : dense :=
  fold_left (fun M fb => scatter_block M (fst fb) (snd fb))
            (combine faces blocks) (fun _ _ => 0).

(** A row of three coordinates, from a vector. *)
Definition vec_list (v : vec3) : list R :=
  let '(x, y, z) := v in [x; y; z].

(** The triplets one triangle hands to [csr_matrix]: its slice of the
    flattened row indices, column indices and local matrix. *)
Definition face_triplets (f : list Z) (blk : list (list R)) : list (Z * Z * R) :=
  combine (combine (concat (tile31 f)) (concat (transpose (tile31 f))))
          (concat blk).

(** A 3x3 matrix equal to its transpose. *)
Definition is_sym33 (m : list (list R)) : Prop :=
  match m with
  | [[_; m01; m02]; [m10; _; m12]; [m20; m21; _]] =>
      m01 = m10 /\ m02 = m20 /\ m12 = m21
  | _ => False
  end.

(** The local matrices of one triangle of a mesh. *)
Definition face_stiffness (points : list (list R)) (faces : list (list Z))
  (f : list Z) : list (list R) :=
  stiffness_block (eff_vol points faces f)
    (tri_a0 points f) (tri_a1 points f) (tri_a0110 points f).

Definition face_mass (points : list (list R)) (faces : list (list Z))
  (f : list Z) : list (list R) :=
  mass_block (eff_vol points faces f).

(** The flattened index arrays [I_new] and [J_new] of [computeAB]. *)
Definition I_new (faces : list (list Z)) : list Z :=
  flatten (map (fun x => tile31 x) faces).
Definition J_new (faces : list (list Z)) : list Z :=
  flatten (map (fun x => transpose (tile31 x)) faces).

(** A triplet whose indices lie within a shape. *)
Definition in_shape (sh : Z * Z) (t : Z * Z * R) : Prop :=
  (0 <= fst (fst t) < fst sh)%Z /\ (0 <= snd (fst t) < snd sh)%Z.

(** ** Meshes used as examples

    The selection of cube faces of the docstrings, and a mesh of two
    triangles of which the second is flat (its corners are collinear). *)

Definition cube_points : list (list R) :=
  [[0; 0; 0]; [1; 0; 0]; [0; 0; 1]; [0; 1; 1];
   [1; 0; 1]; [0; 1; 0]; [1; 1; 1]; [1; 1; 0]].

Definition cube_faces : list (list Z) :=
  [[0; 2; 4]; [0; 1; 4]; [2; 3; 4]; [3; 4; 5]; [3; 5; 6]; [0; 1; 7]]%Z.

Definition flat_points : list (list R) :=
  [[0; 0; 0]; [1; 0; 0]; [0; 1; 0]; [2; 0; 0]].

Definition flat_faces : list (list Z) :=
  [[0; 1; 2]; [0; 1; 3]]%Z.

(** The sentinel of [fem_laplacian] and the message printed with it. *)
Definition sentinel : pyseq := NdArray_int [-1; -1; -1; -1; -1]%Z.

Definition too_small_message : string :=
  "The input size is too small to compute spectra. Skipped.".

(** Faces that are no array of index triples: ragged rows, and an index
    outside every mesh of fewer than ten points. *)
Definition malformed_faces : list (list Z) := [[0; 9]; [1]]%Z.

(** A solver that always fails, and one that returns fixed eigenvalues. *)
Definition failing_eigsh (A : csr) (k : nat) (M : csr) (which : which_mode)
  : result (list R * list (list R)) := Raise SolverError.

Definition constant_eigsh (A : csr) (k : nat) (M : csr) (which : which_mode)
  : result (list R * list (list R)) := Ok ([0; 1; 4], []).

(** ** Quantities read off the assembled matrices *)

(** [M[i, :].sum()]: the sum of row [i] over the columns of the shape. *)
Definition row_sum (M : csr) (i : Z) : R :=
  Rsum (map (fun j => entry M i j) (zrange (snd (shape M)))).

(** The largest vertex index that occurs in [faces]. *)
Definition max_index (faces : list (list Z)) : Z := zmax (concat faces).

(** How often the vertex [i] occurs among the corners of a face. *)
Definition occurrences (f : list Z) (i : Z) : nat := count_occ Z.eq_dec f i.

(** ** Indices counted from the end

    A face index in [-N, 0) names the point [N + i] in the lookups of
    [computeAB]. *)
Definition wrap_index (n : nat) (i : Z) : Z :=
  if (i <? 0)%Z then (i + Z.of_nat n)%Z else i.

(** A mesh whose lookups succeed: as [valid_mesh], with the indices in
    [-N, N). *)
Definition lookup_mesh (points : list (list R)) (faces : list (list Z)) : bool :=
  negb (Nat.eqb (length faces) 0)
  && forallb (fun p => Nat.eqb (length p) 3) points
  && forallb (fun f => Nat.eqb (length f) 3
                       && forallb (fun i => (- Z.of_nat (length points) <=? i)
                                            && (i <? Z.of_nat (length points)))%Z f)
             faces.

(** Faces that are triples of indices into [n] points. *)
Definition faces_ok (n : nat) (faces : list (list Z)) : bool :=
  negb (Nat.eqb (length faces) 0)
  && forallb (fun f => Nat.eqb (length f) 3
                       && forallb (fun i => (0 <=? i) && (i <? Z.of_nat n))%Z f)
             faces.

(** ** print_sparse_matrix

    The print statement of Python 2 on standard output.  An item is
    preceded by a space when the soft-space flag is set; the flag is set
    again after the item unless the item is a string that ends in a
    whitespace character other than the space.  The end of a print
    statement without a trailing comma writes a newline and clears the
    flag. *)

Record stdout : Type := mk_stdout {
  text : string;
  softspace : bool
}.

Definition tab : ascii := Ascii.ascii_of_nat 9.
Definition newline : ascii := Ascii.ascii_of_nat 10.

Definition is_space (c : ascii) : bool :=
  let n := Ascii.nat_of_ascii c in
  Nat.eqb n 32 || ((9 <=? n)%nat && (n <=? 13)%nat).

Fixpoint last_char (s : string) : option ascii :=
  match s with
  | EmptyString => None
  | String c EmptyString => Some c
  | String _ s' => last_char s'
  end.

Definition sets_softspace (s : string) : bool :=
  match last_char s with
  | None => true
  | Some c => negb (is_space c) || Ascii.eqb c " "%char
  end.

Definition print_item (s : string) (st : stdout) : stdout :=
  mk_stdout ((if softspace st then text st ++ " " else text st) ++ s)%string
            (sets_softspace s).

Definition print_newline (st : stdout) : stdout :=
  mk_stdout (text st ++ String newline EmptyString)%string false.

(** [s.rjust(n)] *)
Definition rjust (n : nat) (s : string) : string :=
  (String.concat "" (repeat " "%string (n - String.length s)) ++ s)%string.

(** [M.toarray().tolist()] *)
Definition toarray (M : csr) : list (list R) :=
  map (fun i => map (fun j => entry M i j) (zrange (snd (shape M))))
      (zrange (fst (shape M))).

Definition heading : string :=
  String newline ("The sparse matrix:" ++ String newline EmptyString).

Section PrintSparseMatrix.

(** ["{0:2.4f}".format(E)]: the decimal rendering of a float, which the
    model leaves open. *)
Variable format_2_4f : R -> string.

Definition cell (E : R) : string :=
  if Req_dec_T E 0
  then rjust 6 (String "0"%char (String tab EmptyString))
  else (format_2_4f E ++ String tab EmptyString)%string.

Definition print_sparse_matrix (M : csr) (st : stdout) : stdout :=
  let st := print_newline (print_item heading st) in
  fold_left
    (fun st Row =>
       let st := fold_left (fun st E => print_item (cell E) st) Row st in
       print_newline (print_item "" st))
    (toarray M) st.

(** The text of the matrix, row by row. *)
Definition render_row (Row : list R) : string :=
  (String.concat "" (map cell Row) ++ String newline EmptyString)%string.

Definition render (M : csr) : string :=
  (heading ++ String newline EmptyString
   ++ String.concat "" (map render_row (toarray M)))%string.

End PrintSparseMatrix.

(** ** Moving and scaling a mesh *)

(** Every point moved by the vector [d], and every coordinate multiplied by
    [s]. *)
Definition translate (d : vec3) (points : list (list R)) : list (list R) :=
  map (fun p => zipWith Rplus p (vec_list d)) points.

Definition scale (s : R) (points : list (list R)) : list (list R) :=
  map (map (fun x => s * x)) points.

Definition vadd (p q : vec3) : vec3 :=
  let '(px, py, pz) := p in let '(qx, qy, qz) := q in (px + qx, py + qy, pz + qz).

Definition vscale (s : R) (p : vec3) : vec3 :=
  let '(px, py, pz) := p in (s * px, s * py, s * pz).

(** The six ways of listing the corners of a triangle. *)
Definition orderings (a b c : Z) : list (list Z) :=
  [[a; b; c]; [a; c; b]; [b; a; c]; [b; c; a]; [c; a; b]; [c; b; a]].

(** * Proofs *)

Unset Implicit Arguments.

(** ** Sums *)

Lemma fold_left_Rplus_acc (l : list R) (a : R) :
  fold_left Rplus l a = a + fold_left Rplus l 0.
Proof.
  revert a. induction l as [|x l IH]; intros a; simpl.
  - ring.
  - rewrite IH, (IH (0 + x)). ring.
Qed.

Lemma Rsum_nil : Rsum [] = 0.
Proof. reflexivity. Qed.

Lemma Rsum_cons (x : R) (l : list R) : Rsum (x :: l) = x + Rsum l.
Proof.
  unfold Rsum. simpl. rewrite fold_left_Rplus_acc. ring.
Qed.

Lemma Rsum_app (l1 l2 : list R) : Rsum (l1 ++ l2) = Rsum l1 + Rsum l2.
Proof.
  induction l1 as [|x l1 IH]; simpl.
  - rewrite Rsum_nil. ring.
  - rewrite !Rsum_cons, IH. ring.
Qed.

Lemma Rsum_map_plus {A : Type} (f g : A -> R) (l : list A) :
  Rsum (map (fun x => f x + g x) l) = Rsum (map f l) + Rsum (map g l).
Proof.
  induction l as [|x l IH]; simpl.
  - rewrite Rsum_nil. ring.
  - rewrite !Rsum_cons, IH. ring.
Qed.

Lemma Rsum_map_zero {A : Type} (f : A -> R) (l : list A) :
  (forall x, In x l -> f x = 0) -> Rsum (map f l) = 0.
Proof.
  induction l as [|x l IH]; intros H; simpl.
  - apply Rsum_nil.
  - rewrite Rsum_cons, (H x) by (simpl; auto).
    rewrite IH by (intros y Hy; apply H; simpl; auto). ring.
Qed.

Lemma Rsum_map_ext {A : Type} (f g : A -> R) (l : list A) :
  (forall x, In x l -> f x = g x) -> Rsum (map f l) = Rsum (map g l).
Proof.
  intros H. f_equal. apply map_ext_in. exact H.
Qed.

Lemma Rsum_concat_map {A : Type} (f : A -> list R) (l : list A) :
  Rsum (concat (map f l)) = Rsum (map (fun x => Rsum (f x)) l).
Proof.
  induction l as [|x l IH]; simpl.
  - reflexivity.
  - rewrite Rsum_app, Rsum_cons, IH. reflexivity.
Qed.

Lemma Rsum_nonneg (l : list R) : Forall (fun x => 0 <= x) l -> 0 <= Rsum l.
Proof.
  induction 1 as [|x l Hx _ IH].
  - rewrite Rsum_nil. lra.
  - rewrite Rsum_cons. lra.
Qed.

Lemma Rsum_pos (l : list R) :
  Forall (fun x => 0 <= x) l -> Exists (fun x => 0 < x) l -> 0 < Rsum l.
Proof.
  intros Hall Hex. induction Hex as [x l Hx | x l _ IH].
  - rewrite Rsum_cons. apply Forall_inv_tail in Hall.
    pose proof (Rsum_nonneg _ Hall). lra.
  - rewrite Rsum_cons. pose proof (Forall_inv Hall) as Hx.
    apply Forall_inv_tail in Hall. specialize (IH Hall). simpl in Hx. lra.
Qed.

(** ** The error monad and the array primitives on well-shaped input *)

Lemma mapM_map_ok {A B C : Type} (f : B -> result C) (g : A -> B) (h : A -> C)
  (l : list A) :
  (forall x, In x l -> f (g x) = Ok (h x)) ->
  mapM f (map g l) = Ok (map h l).
Proof.
  induction l as [|x l IH]; intros H; simpl.
  - reflexivity.
  - rewrite (H x) by (simpl; auto). simpl.
    rewrite IH by (intros y Hy; apply H; simpl; auto). reflexivity.
Qed.

Lemma mapM_ok {A B : Type} (f : A -> result B) (h : A -> B) (l : list A) :
  (forall x, In x l -> f x = Ok (h x)) -> mapM f l = Ok (map h l).
Proof.
  intros H. rewrite <- (map_id l) at 1. apply mapM_map_ok. exact H.
Qed.

Lemma is_2d_rect {X : Type} (n : nat) (a : list (list X)) :
  a <> [] -> Forall (fun r => length r = n) a -> is_2d a = true.
Proof.
  intros Hne Hall. destruct a as [|r rs]; [congruence|].
  simpl. apply forallb_forall. intros r' Hr'.
  rewrite Forall_forall in Hall.
  rewrite (Hall r) by (simpl; auto). rewrite (Hall r') by (simpl; auto).
  apply Nat.eqb_refl.
Qed.

Lemma get_nth {X : Type} (l : list X) (n : nat) (d : X) :
  (n < length l)%nat -> get l n = Ok (nth n l d).
Proof.
  intros H. unfold get.
  rewrite (nth_error_nth' l d H). reflexivity.
Qed.

Lemma column_ok {X : Type} (w c : nat) (d : X) (a : list (list X)) :
  a <> [] -> Forall (fun r => length r = w) a -> (c < w)%nat ->
  column c a = Ok (map (fun r => nth c r d) a).
Proof.
  intros Hne Hall Hc. unfold column.
  rewrite (is_2d_rect _ _ Hne Hall).
  apply mapM_ok. intros r Hr. apply get_nth.
  rewrite Forall_forall in Hall. rewrite (Hall r Hr). exact Hc.
Qed.

Lemma norm_index_in_range (n : nat) (i : Z) :
  (0 <= i < Z.of_nat n)%Z -> norm_index n i = Ok (Z.to_nat i).
Proof.
  intros [H0 H1]. unfold norm_index.
  apply Z.leb_le in H0. apply Z.ltb_lt in H1. rewrite H0, H1. reflexivity.
Qed.

Lemma take_rows_ok {X : Type} (w : nat) (a : list (list X)) (idx : list Z) :
  a <> [] -> Forall (fun r => length r = w) a ->
  Forall (fun i => (0 <= i < Z.of_nat (length a))%Z) idx ->
  take_rows a idx = Ok (map (fun i => nth (Z.to_nat i) a []) idx).
Proof.
  intros Hne Hall Hidx. unfold take_rows.
  rewrite (is_2d_rect _ _ Hne Hall).
  apply mapM_ok. intros i Hi.
  rewrite Forall_forall in Hidx. specialize (Hidx i Hi).
  rewrite (norm_index_in_range _ _ Hidx). simpl.
  apply get_nth. lia.
Qed.

Lemma zipWith_map {A B C D : Type} (f : B -> C -> D) (g : A -> B) (h : A -> C)
  (l : list A) :
  zipWith f (map g l) (map h l) = map (fun x => f (g x) (h x)) l.
Proof.
  induction l as [|x l IH]; simpl; [reflexivity|]. rewrite IH. reflexivity.
Qed.

Lemma zipWith_map_repeat {A B C D : Type} (f : B -> C -> D) (g : A -> B) (c : C)
  (l : list A) :
  zipWith f (map g l) (repeat c (length l)) = map (fun x => f (g x) c) l.
Proof.
  induction l as [|x l IH]; simpl; [reflexivity|]. rewrite IH. reflexivity.
Qed.

Lemma combine_map {A B C : Type} (g : A -> B) (h : A -> C) (l : list A) :
  combine (map g l) (map h l) = map (fun x => (g x, h x)) l.
Proof.
  induction l as [|x l IH]; simpl; [reflexivity|]. rewrite IH. reflexivity.
Qed.

Lemma combine_concat_map {A B C : Type} (g : A -> list B) (h : A -> list C)
  (l : list A) :
  (forall x, In x l -> length (g x) = length (h x)) ->
  combine (concat (map g l)) (concat (map h l))
  = concat (map (fun x => combine (g x) (h x)) l).
Proof.
  induction l as [|x l IH]; intros H; simpl; [reflexivity|].
  rewrite <- IH by (intros y Hy; apply H; simpl; auto).
  assert (Hx : length (g x) = length (h x)) by (apply H; simpl; auto).
  generalize (concat (map g l)) (concat (map h l)). revert Hx.
  generalize (g x) (h x). clear.
  induction l as [|b l IH]; intros [|c l'] Hlen u v; simpl in *; try discriminate.
  - reflexivity.
  - f_equal. apply IH. lia.
Qed.

Lemma flatten_map {A X : Type} (g : A -> list (list X)) (l : list A) :
  flatten (map g l) = concat (map (fun x => concat (g x)) l).
Proof.
  unfold flatten. rewrite map_map. reflexivity.
Qed.

(** ** What a valid mesh provides *)

Lemma valid_mesh_faces_nonempty points faces :
  valid_mesh points faces = true -> faces <> [].
Proof.
  unfold valid_mesh. intros H Hnil. subst faces. discriminate H.
Qed.

Lemma valid_mesh_points points faces :
  valid_mesh points faces = true -> Forall (fun p => length p = 3%nat) points.
Proof.
  unfold valid_mesh. intros H.
  apply andb_prop in H as [H _]. apply andb_prop in H as [_ H].
  apply Forall_forall. intros p Hp.
  rewrite forallb_forall in H. apply Nat.eqb_eq, H, Hp.
Qed.

Lemma valid_mesh_face points faces f :
  valid_mesh points faces = true -> In f faces ->
  exists i j k, f = [i; j; k]
    /\ (0 <= i < Z.of_nat (length points))%Z
    /\ (0 <= j < Z.of_nat (length points))%Z
    /\ (0 <= k < Z.of_nat (length points))%Z.
Proof.
  unfold valid_mesh. intros H Hf.
  apply andb_prop in H as [_ H].
  rewrite forallb_forall in H. specialize (H f Hf).
  apply andb_prop in H as [Hlen Hidx]. apply Nat.eqb_eq in Hlen.
  destruct f as [|i [|j [|k [|? ?]]]]; try discriminate Hlen.
  exists i, j, k. simpl in Hidx.
  repeat (apply andb_prop in Hidx as [?H Hidx]).
  repeat match goal with
         | H : ((_ <=? _) && (_ <? _))%Z = true |- _ =>
             apply andb_prop in H as [?H ?H]
         | H : (_ <=? _)%Z = true |- _ => apply Z.leb_le in H
         | H : (_ <? _)%Z = true |- _ => apply Z.ltb_lt in H
         end.
  repeat split; auto.
Qed.

Lemma valid_mesh_face_length points faces :
  valid_mesh points faces = true -> Forall (fun f => length f = 3%nat) faces.
Proof.
  intros H. apply Forall_forall. intros f Hf.
  destruct (valid_mesh_face _ _ _ H Hf) as (i & j & k & -> & _). reflexivity.
Qed.

Lemma valid_mesh_points_nonempty points faces :
  valid_mesh points faces = true -> points <> [].
Proof.
  intros H Hnil. destruct faces as [|f fs].
  - exact (valid_mesh_faces_nonempty _ _ H eq_refl).
  - destruct (valid_mesh_face _ _ f H (or_introl eq_refl)) as (i & _ & _ & _ & Hi & _).
    rewrite Hnil in Hi. simpl in Hi. lia.
Qed.

Lemma point_row (points : list (list R)) (i : Z) :
  Forall (fun p => length p = 3%nat) points ->
  (0 <= i < Z.of_nat (length points))%Z ->
  exists x y z, nth (Z.to_nat i) points [] = [x; y; z].
Proof.
  intros Hall Hi.
  assert (Hin : In (nth (Z.to_nat i) points []) points) by (apply nth_In; lia).
  rewrite Forall_forall in Hall. specialize (Hall _ Hin).
  destruct (nth (Z.to_nat i) points []) as [|x [|y [|z [|? ?]]]]; try discriminate Hall.
  eauto.
Qed.

Lemma valid_mesh_index points faces f k :
  valid_mesh points faces = true -> In f faces -> (k < 3)%nat ->
  (0 <= nth k f 0 < Z.of_nat (length points))%Z.
Proof.
  intros H Hf Hk.
  destruct (valid_mesh_face _ _ _ H Hf) as (i & j & l & -> & Hi & Hj & Hl).
  destruct k as [|[|[|k]]]; simpl; auto. lia.
Qed.

Lemma valid_mesh_column points faces k :
  valid_mesh points faces = true -> (k < 3)%nat ->
  Forall (fun i => (0 <= i < Z.of_nat (length points))%Z)
         (map (fun r => nth k r 0%Z) faces).
Proof.
  intros H Hk. apply Forall_forall. intros i Hi.
  apply in_map_iff in Hi as (f & <- & Hf).
  exact (valid_mesh_index _ _ _ _ H Hf Hk).
Qed.

(** ** Rows of three coordinates as vectors *)

Lemma row_corner points faces f k :
  valid_mesh points faces = true -> In f faces -> (k < 3)%nat ->
  nth (Z.to_nat (nth k f 0%Z)) points [] = vec_list (corner points f k).
Proof.
  intros Hv Hf Hk. unfold corner, vertex.
  destruct (point_row points (nth k f 0%Z)) as (x & y & z & ->).
  - exact (valid_mesh_points _ _ Hv).
  - exact (valid_mesh_index _ _ _ _ Hv Hf Hk).
  - reflexivity.
Qed.

Lemma rows_corner points faces k :
  valid_mesh points faces = true -> (k < 3)%nat ->
  map (fun i => nth (Z.to_nat i) points []) (map (fun r => nth k r 0%Z) faces)
  = map (fun f => vec_list (corner points f k)) faces.
Proof.
  intros Hv Hk. rewrite map_map. apply map_ext_in. intros f Hf.
  exact (row_corner _ _ _ _ Hv Hf Hk).
Qed.

Lemma ew2_minus_vec {A : Type} (g h : A -> vec3) (l : list A) :
  ew2 Rminus (map (fun x => vec_list (g x)) l) (map (fun x => vec_list (h x)) l)
  = map (fun x => vec_list (vsub (g x) (h x))) l.
Proof.
  unfold ew2. rewrite zipWith_map. apply map_ext. intros x.
  destruct (g x) as [[gx gy] gz], (h x) as [[hx hy] hz]. reflexivity.
Qed.

Lemma sum_mult_vec {A : Type} (g h : A -> vec3) (l : list A) :
  sum_axis1 (ew2 Rmult (map (fun x => vec_list (g x)) l)
                       (map (fun x => vec_list (h x)) l))
  = map (fun x => dot (g x) (h x)) l.
Proof.
  unfold sum_axis1, ew2. rewrite zipWith_map, map_map. apply map_ext. intros x.
  destruct (g x) as [[gx gy] gz], (h x) as [[hx hy] hz].
  unfold Rsum. simpl. ring.
Qed.

Lemma np_cross_vec {A : Type} (g h : A -> vec3) (l : list A) :
  np_cross (map (fun x => vec_list (g x)) l) (map (fun x => vec_list (h x)) l)
  = Ok (map (fun x => vec_list (cross (g x) (h x))) l).
Proof.
  unfold np_cross. rewrite combine_map.
  apply mapM_map_ok. intros x _.
  destruct (g x) as [[gx gy] gz], (h x) as [[hx hy] hz]. reflexivity.
Qed.

(** A block of copies of a scalar, combined entry by entry with a constant
    matrix tiled over the triangles. *)
Lemma ew3_repeat {A : Type} (op : R -> R -> R) (g : A -> R) (M : list (list R))
  (l : list A) :
  ew3 op (reshape_and_repeat (map g l)) (repeat M (length l))
  = map (fun x => zipWith (zipWith op)
                    (map (map (fun o => o * g x)) ones33) M) l.
Proof.
  unfold ew3, reshape_and_repeat. rewrite map_map.
  apply zipWith_map_repeat.
Qed.

(** ** The local matrices of a valid mesh *)

Lemma one_point_zero : 1.0 = 1.
Proof. lra. Qed.

Lemma local_mass_block (v : R) :
  zipWith (zipWith Rmult) (map (map (fun o => o * v)) ones33) tB_unit
  = mass_block v.
Proof.
  cbv [mass_block mscale tB_unit ones33 eye3 zipWith map].
  rewrite !Rmult_1_l. reflexivity.
Qed.

Lemma local_stiffness_block (v a0 a1 a0110 : R) :
  zipWith (zipWith Rmult)
    (map (map (fun x => 1.0 / x)) (map (map (fun o => o * v)) ones33))
    (zipWith (zipWith Rminus)
       (zipWith (zipWith Rplus)
          (zipWith (zipWith Rmult) (map (map (fun o => o * a0)) ones33) tA00_unit)
          (zipWith (zipWith Rmult) (map (map (fun o => o * a1)) ones33) tA11_unit))
       (zipWith (zipWith Rmult) (map (map (fun o => o * a0110)) ones33) tA0110_unit))
  = stiffness_block v a0 a1 a0110.
Proof.
  cbv [stiffness_block mscale madd msub tA00_unit tA11_unit tA0110_unit
       ones33 zipWith map].
  rewrite !Rmult_1_l, one_point_zero. reflexivity.
Qed.

Lemma computeAB_locals_valid points faces :
  valid_mesh points faces = true ->
  computeAB_locals points faces
  = Ok (mk_locals
          (map (tri_vol points) faces)
          (mesh_vol_mean points faces)
          (map (eff_vol points faces) faces)
          (map (fun f => mass_block (eff_vol points faces f)) faces)
          (map (fun f => stiffness_block (eff_vol points faces f)
                           (tri_a0 points f) (tri_a1 points f) (tri_a0110 points f))
               faces)).
Proof.
  intros Hv.
  pose proof (valid_mesh_faces_nonempty _ _ Hv) as Hfne.
  pose proof (valid_mesh_face_length _ _ Hv) as Hflen.
  pose proof (valid_mesh_points _ _ Hv) as Hplen.
  pose proof (valid_mesh_points_nonempty _ _ Hv) as Hpne.
  unfold computeAB_locals. cbv zeta.
  rewrite (column_ok 3 0 0%Z faces Hfne Hflen) by lia.
  rewrite (column_ok 3 1 0%Z faces Hfne Hflen) by lia.
  rewrite (column_ok 3 2 0%Z faces Hfne Hflen) by lia.
  cbn [bind].
  rewrite !(take_rows_ok 3 points _ Hpne Hplen) by (apply valid_mesh_column; [exact Hv | lia]).
  cbn [bind].
  rewrite !(rows_corner _ _ _ Hv) by lia.
  rewrite !ew2_minus_vec, np_cross_vec. cbn [bind].
  rewrite !sum_mult_vec.
  set (raw := map sqrt _).
  assert (Hraw : raw = map (tri_vol points) faces)
    by (subst raw; rewrite map_map; reflexivity).
  rewrite Hraw. clear raw Hraw.
  fold (mesh_vol_mean points faces).
  rewrite (map_map (tri_vol points)).
  change (map (fun x => if Req_dec_T (tri_vol points x) 0
                        then mesh_vol_mean points faces else tri_vol points x) faces)
    with (map (eff_vol points faces) faces).
  rewrite !ew3_repeat.
  unfold map3, reshape_and_repeat, ew3.
  rewrite !map_map, !zipWith_map.
  do 2 f_equal; apply map_ext; intros f.
  - apply local_mass_block.
  - apply local_stiffness_block.
Qed.

(** ** Assembly of the sparse matrices *)

Lemma existsb_neg_false (l : list Z) :
  Forall (fun i => (0 <= i)%Z) l -> existsb (fun i => (i <? 0)%Z) l = false.
Proof.
  induction 1 as [|x l Hx _ IH]; simpl; [reflexivity|].
  rewrite IH, orb_false_r. apply Z.ltb_ge. exact Hx.
Qed.

Lemma csr_matrix_ok (data : list R) (row col : list Z) :
  length row = length data -> length col = length data -> row <> [] ->
  Forall (fun i => (0 <= i)%Z) row -> Forall (fun i => (0 <= i)%Z) col ->
  csr_matrix data row col
  = Ok (mk_csr (zmax row + 1, zmax col + 1)%Z (combine (combine row col) data)).
Proof.
  intros Hr Hc Hne Hrow Hcol. unfold csr_matrix.
  rewrite Hr, Hc, Nat.eqb_refl. simpl.
  destruct (Nat.eqb_spec (length data) 0) as [H0|_].
  - destruct row; [congruence | simpl in Hr; lia].
  - rewrite (existsb_neg_false _ Hrow), (existsb_neg_false _ Hcol). reflexivity.
Qed.

Lemma length_concat_const {A X : Type} (g : A -> list X) (n : nat) (l : list A) :
  (forall x, In x l -> length (g x) = n) ->
  length (concat (map g l)) = (n * length l)%nat.
Proof.
  induction l as [|x l IH]; intros H; simpl; [lia|].
  rewrite length_app, (H x) by (simpl; auto).
  rewrite IH by (intros y Hy; apply H; simpl; auto). lia.
Qed.

Lemma mass_block_shape (v : R) :
  exists m00 m01 m02 m10 m11 m12 m20 m21 m22,
    mass_block v = [[m00; m01; m02]; [m10; m11; m12]; [m20; m21; m22]].
Proof.
  cbv [mass_block mscale tB_unit ones33 eye3 zipWith map]. repeat eexists.
Qed.

Lemma stiffness_block_shape (v a0 a1 a0110 : R) :
  exists m00 m01 m02 m10 m11 m12 m20 m21 m22,
    stiffness_block v a0 a1 a0110
    = [[m00; m01; m02]; [m10; m11; m12]; [m20; m21; m22]].
Proof.
  cbv [stiffness_block mscale madd msub tA00_unit tA11_unit tA0110_unit
       zipWith map]. repeat eexists.
Qed.

Lemma mass_block_sym (v : R) : is_sym33 (mass_block v).
Proof.
  cbv [is_sym33 mass_block mscale tB_unit ones33 eye3 zipWith map].
  repeat split; lra.
Qed.

Lemma stiffness_block_sym (v a0 a1 a0110 : R) :
  is_sym33 (stiffness_block v a0 a1 a0110).
Proof.
  cbv [is_sym33 stiffness_block mscale madd msub tA00_unit tA11_unit
       tA0110_unit zipWith map].
  repeat split; reflexivity.
Qed.

Lemma is_sym33_length (m : list (list R)) :
  is_sym33 m -> length (concat m) = 9%nat.
Proof.
  destruct m as [|[|? [|? [|? [|? ?]]]] [|[|? [|? [|? [|? ?]]]] [|[|? [|? [|? [|? ?]]]] [|? ?]]]];
    simpl; intros H; try contradiction; reflexivity.
Qed.

Lemma face_index_lengths points faces f :
  valid_mesh points faces = true -> In f faces ->
  length (concat (tile31 f)) = 9%nat
  /\ length (concat (transpose (tile31 f))) = 9%nat.
Proof.
  intros Hv Hf.
  destruct (valid_mesh_face _ _ _ Hv Hf) as (i & j & k & -> & _).
  split; reflexivity.
Qed.

Lemma face_index_nonneg points faces f :
  valid_mesh points faces = true -> In f faces ->
  Forall (fun i => (0 <= i)%Z) (concat (tile31 f))
  /\ Forall (fun i => (0 <= i)%Z) (concat (transpose (tile31 f))).
Proof.
  intros Hv Hf.
  destruct (valid_mesh_face _ _ _ Hv Hf) as (i & j & k & -> & Hi & Hj & Hk).
  split; simpl; repeat constructor; lia.
Qed.

Lemma Forall_concat_map {A X : Type} (P : X -> Prop) (g : A -> list X) (l : list A) :
  (forall x, In x l -> Forall P (g x)) -> Forall P (concat (map g l)).
Proof.
  induction l as [|x l IH]; intros H; simpl; [constructor|].
  apply Forall_app. split.
  - apply H. simpl. auto.
  - apply IH. intros y Hy. apply H. simpl. auto.
Qed.

Lemma computeAB_valid points faces :
  valid_mesh points faces = true ->
  computeAB points faces
  = Ok (mk_csr (zmax (I_new faces) + 1, zmax (J_new faces) + 1)%Z
          (concat (map (fun f => face_triplets f (face_stiffness points faces f)) faces)),
        mk_csr (zmax (I_new faces) + 1, zmax (J_new faces) + 1)%Z
          (concat (map (fun f => face_triplets f (face_mass points faces f)) faces))).
Proof.
  intros Hv. unfold computeAB.
  rewrite (computeAB_locals_valid _ _ Hv). cbn [bind localA localB].
  fold (I_new faces) (J_new faces).
  assert (HI : length (I_new faces) = (9 * length faces)%nat).
  { unfold I_new. rewrite flatten_map. apply length_concat_const.
    intros f Hf. apply (face_index_lengths _ _ _ Hv Hf). }
  assert (HJ : length (J_new faces) = (9 * length faces)%nat).
  { unfold J_new. rewrite flatten_map. apply length_concat_const.
    intros f Hf. apply (face_index_lengths _ _ _ Hv Hf). }
  assert (HIpos : Forall (fun i => (0 <= i)%Z) (I_new faces)).
  { unfold I_new. rewrite flatten_map. apply Forall_concat_map.
    intros f Hf. apply (face_index_nonneg _ _ _ Hv Hf). }
  assert (HJpos : Forall (fun i => (0 <= i)%Z) (J_new faces)).
  { unfold J_new. rewrite flatten_map. apply Forall_concat_map.
    intros f Hf. apply (face_index_nonneg _ _ _ Hv Hf). }
  assert (Hne : I_new faces <> []).
  { intros Hnil. rewrite Hnil in HI. simpl in HI.
    pose proof (valid_mesh_faces_nonempty _ _ Hv) as Hf.
    destruct faces; [congruence | simpl in HI; lia]. }
  rewrite !csr_matrix_ok; auto.
  - cbn [bind]. unfold I_new, J_new. rewrite !flatten_map.
    rewrite combine_concat_map
      by (intros f Hf; destruct (face_index_lengths _ _ _ Hv Hf); congruence).
    rewrite !combine_concat_map.
    + reflexivity.
    + intros f Hf. rewrite length_combine.
      destruct (face_index_lengths _ _ _ Hv Hf) as [-> ->].
      rewrite is_sym33_length by (apply mass_block_sym || apply stiffness_block_sym).
      reflexivity.
    + intros f Hf. rewrite length_combine.
      destruct (face_index_lengths _ _ _ Hv Hf) as [-> ->].
      rewrite is_sym33_length by (apply mass_block_sym || apply stiffness_block_sym).
      reflexivity.
  - rewrite HI, flatten_map. symmetry. apply length_concat_const.
    intros f _. apply is_sym33_length; (apply mass_block_sym || apply stiffness_block_sym).
  - rewrite HJ, flatten_map. symmetry. apply length_concat_const.
    intros f _. apply is_sym33_length; (apply mass_block_sym || apply stiffness_block_sym).
  - rewrite HI, flatten_map. symmetry. apply length_concat_const.
    intros f _. apply is_sym33_length; (apply mass_block_sym || apply stiffness_block_sym).
  - rewrite HJ, flatten_map. symmetry. apply length_concat_const.
    intros f _. apply is_sym33_length; (apply mass_block_sym || apply stiffness_block_sym).
Qed.

(** ** Entries of the assembled matrices *)

Lemma entry_concat_map {A : Type} (sh : Z * Z) (g : A -> list (Z * Z * R))
  (l : list A) (i j : Z) :
  entry (mk_csr sh (concat (map g l))) i j
  = Rsum (map (fun x => Rsum (map (hit i j) (g x))) l).
Proof.
  unfold entry. cbn [triplets].
  rewrite concat_map, map_map. apply Rsum_concat_map.
Qed.

Lemma face_triplets_explicit (a b c : Z)
  (m00 m01 m02 m10 m11 m12 m20 m21 m22 : R) :
  face_triplets [a; b; c] [[m00; m01; m02]; [m10; m11; m12]; [m20; m21; m22]]
  = [(a, a, m00); (b, a, m01); (c, a, m02);
     (a, b, m10); (b, b, m11); (c, b, m12);
     (a, c, m20); (b, c, m21); (c, c, m22)].
Proof. reflexivity. Qed.

Ltac case_eqbs :=
  repeat match goal with
         | |- context [Z.eqb ?x ?y] => destruct (Z.eqb x y)
         end.

Lemma face_contrib_sym (f : list Z) (blk : list (list R)) (i j : Z) :
  length f = 3%nat -> is_sym33 blk ->
  Rsum (map (hit i j) (face_triplets f blk))
  = Rsum (map (hit j i) (face_triplets f blk)).
Proof.
  intros Hf Hs.
  destruct f as [|a [|b [|c [|? ?]]]]; try discriminate Hf.
  destruct blk as [|[|m00 [|m01 [|m02 [|? ?]]]]
                     [|[|m10 [|m11 [|m12 [|? ?]]]]
                        [|[|m20 [|m21 [|m22 [|? ?]]]] [|? ?]]]];
    simpl in Hs; try contradiction.
  destruct Hs as (H01 & H02 & H12).
  rewrite face_triplets_explicit. unfold Rsum, hit. cbn [map fold_left].
  case_eqbs; cbn [andb]; lra.
Qed.

(** * The claims *)

(** C3. For every valid input (a mesh the code accepts, all face indices in
    range) [computeAB] returns two matrices and both are symmetric:
    [A[i,j] = A[j,i]] and [B[i,j] = B[j,i]] for all index pairs. *)
Theorem computeAB_symmetric (points : list (list R)) (faces : list (list Z)) :
  valid_mesh points faces = true ->
  exists A B,
    computeAB points faces = Ok (A, B)
    /\ forall i j, entry A i j = entry A j i /\ entry B i j = entry B j i.
Proof.
  intros Hv. eexists. eexists. split.
  - exact (computeAB_valid _ _ Hv).
  - intros i j. rewrite !entry_concat_map. split.
    + apply Rsum_map_ext. intros f Hf. apply face_contrib_sym.
      * pose proof (valid_mesh_face_length _ _ Hv) as Hlen.
        rewrite Forall_forall in Hlen. exact (Hlen f Hf).
      * apply stiffness_block_sym.
    + apply Rsum_map_ext. intros f Hf. apply face_contrib_sym.
      * pose proof (valid_mesh_face_length _ _ Hv) as Hlen.
        rewrite Forall_forall in Hlen. exact (Hlen f Hf).
      * apply mass_block_sym.
Qed.

Lemma computeAB_symmetric_witness :
  valid_mesh cube_points cube_faces = true
  /\ exists A B,
      computeAB cube_points cube_faces = Ok (A, B)
      /\ forall i j, entry A i j = entry A j i /\ entry B i j = entry B j i.
Proof.
  split.
  - reflexivity.
  - apply (computeAB_symmetric cube_points cube_faces). reflexivity.
Defined.

(** ** The flat example mesh *)

Lemma flat_valid : valid_mesh flat_points flat_faces = true.
Proof. reflexivity. Qed.

Lemma flat_vol_0 : tri_vol flat_points [0; 1; 2]%Z = 1.
Proof.
  unfold tri_vol, norm, e1, e2.
  change (corner flat_points [0; 1; 2]%Z 0) with (0, 0, 0).
  change (corner flat_points [0; 1; 2]%Z 1) with (1, 0, 0).
  change (corner flat_points [0; 1; 2]%Z 2) with (0, 1, 0).
  cbn [vsub cross dot].
  replace (_ + _ + _) with 1 by lra. apply sqrt_1.
Qed.

Lemma flat_vol_1 : tri_vol flat_points [0; 1; 3]%Z = 0.
Proof.
  unfold tri_vol, norm, e1, e2.
  change (corner flat_points [0; 1; 3]%Z 0) with (0, 0, 0).
  change (corner flat_points [0; 1; 3]%Z 1) with (1, 0, 0).
  change (corner flat_points [0; 1; 3]%Z 2) with (2, 0, 0).
  cbn [vsub cross dot].
  replace (_ + _ + _) with 0 by lra. apply sqrt_0.
Qed.

Lemma flat_vol_mean : mesh_vol_mean flat_points flat_faces = 1 / 2.
Proof.
  unfold mesh_vol_mean, np_mean, flat_faces. cbn [map length].
  rewrite flat_vol_0, flat_vol_1. unfold Rsum. cbn [fold_left INR]. lra.
Qed.

Lemma flat_eff_vol_1 : eff_vol flat_points flat_faces [0; 1; 3]%Z = 1 / 2.
Proof.
  unfold eff_vol. rewrite flat_vol_1, flat_vol_mean.
  destruct (Req_dec_T 0 0) as [_|H]; [reflexivity | contradiction H; reflexivity].
Qed.

Lemma flat_scalars_1 :
  tri_a0 flat_points [0; 1; 3]%Z = 4
  /\ tri_a1 flat_points [0; 1; 3]%Z = 1
  /\ tri_a0110 flat_points [0; 1; 3]%Z = 2.
Proof.
  unfold tri_a0, tri_a1, tri_a0110, e1, e2.
  change (corner flat_points [0; 1; 3]%Z 0) with (0, 0, 0).
  change (corner flat_points [0; 1; 3]%Z 1) with (1, 0, 0).
  change (corner flat_points [0; 1; 3]%Z 2) with (2, 0, 0).
  cbn [vsub dot]. repeat split; lra.
Qed.

Lemma nth_map_in {A B : Type} (g : A -> B) (l : list A) (t : nat) (d : A) (d' : B) :
  (t < length l)%nat -> nth t (map g l) d' = g (nth t l d).
Proof.
  intros Ht. rewrite (nth_indep _ d' (g d)) by (rewrite length_map; exact Ht).
  apply map_nth.
Qed.

(** C1 (amended). For every triangle of a valid mesh, with [e1 = p2 - p1],
    [e2 = p3 - p1], [a1 = |e1|^2], [a0 = |e2|^2], [a0110 = e1 . e2] and
    [vol = |e1 x e2|] when that is not zero and otherwise the mean of
    [|e1 x e2|] over all the triangles of the mesh, the local mass block is
    [vol * tB] and the local stiffness block is
    [(1/vol) * (a0*tA00 + a1*tA11 - a0110*tA0110)]. *)
Theorem local_blocks_of_triangle (points : list (list R)) (faces : list (list Z)) :
  valid_mesh points faces = true ->
  exists loc,
    computeAB_locals points faces = Ok loc
    /\ forall t, (t < length faces)%nat ->
       let f := nth t faces [] in
       let p1 := corner points f 0 in
       let p2 := corner points f 1 in
       let p3 := corner points f 2 in
       let e1 := vsub p2 p1 in
       let e2 := vsub p3 p1 in
       let a1 := dot e1 e1 in
       let a0 := dot e2 e2 in
       let a0110 := dot e1 e2 in
       let vol := if Req_dec_T (norm (cross e1 e2)) 0
                  then np_mean (map (tri_vol points) faces)
                  else norm (cross e1 e2) in
       nth t (localB loc) [] = mscale vol tB_unit
       /\ nth t (localA loc) []
          = mscale (1 / vol)
              (msub (madd (mscale a0 tA00_unit) (mscale a1 tA11_unit))
                    (mscale a0110 tA0110_unit)).
Proof.
  intros Hv. eexists. split.
  - exact (computeAB_locals_valid _ _ Hv).
  - intros t Ht. cbn [localA localB].
    rewrite !(nth_map_in _ faces t []) by exact Ht.
    split; reflexivity.
Qed.

Lemma local_blocks_of_triangle_witness :
  valid_mesh flat_points flat_faces = true
  /\ exists loc,
      computeAB_locals flat_points flat_faces = Ok loc
      /\ forall t, (t < length flat_faces)%nat ->
         let f := nth t flat_faces [] in
         let p1 := corner flat_points f 0 in
         let p2 := corner flat_points f 1 in
         let p3 := corner flat_points f 2 in
         let e1 := vsub p2 p1 in
         let e2 := vsub p3 p1 in
         let a1 := dot e1 e1 in
         let a0 := dot e2 e2 in
         let a0110 := dot e1 e2 in
         let vol := if Req_dec_T (norm (cross e1 e2)) 0
                    then np_mean (map (tri_vol flat_points) flat_faces)
                    else norm (cross e1 e2) in
         nth t (localB loc) [] = mscale vol tB_unit
         /\ nth t (localA loc) []
            = mscale (1 / vol)
                (msub (madd (mscale a0 tA00_unit) (mscale a1 tA11_unit))
                      (mscale a0110 tA0110_unit)).
Proof.
  split.
  - reflexivity.
  - apply (local_blocks_of_triangle flat_points flat_faces). reflexivity.
Defined.

(** C1 fails as stated: in the flat mesh the second triangle has
    [|e1 x e2| = 0], and its local mass block is not [|e1 x e2| * tB]. *)
Lemma local_blocks_counterexample :
  valid_mesh flat_points flat_faces = true
  /\ exists loc,
      computeAB_locals flat_points flat_faces = Ok loc
      /\ tri_vol flat_points (nth 1 flat_faces []) = 0
      /\ nth 1 (localB loc) []
         <> mscale (tri_vol flat_points (nth 1 flat_faces [])) tB_unit.
Proof.
  split; [reflexivity|].
  eexists. split; [exact (computeAB_locals_valid _ _ flat_valid)|].
  cbn [localB flat_faces map nth]. split; [exact flat_vol_1|].
  fold flat_faces. rewrite flat_vol_1.
  unfold mass_block. rewrite flat_eff_vol_1.
  cbv [mscale tB_unit ones33 eye3 zipWith map].
  intros H. injection H as H _. lra.
Qed.

Lemma eff_vol_degenerate points faces f :
  tri_vol points f = 0 -> eff_vol points faces f = mesh_vol_mean points faces.
Proof.
  intros H. unfold eff_vol.
  destruct (Req_dec_T (tri_vol points f) 0) as [_|Hn]; [reflexivity | contradiction].
Qed.

Lemma eff_vol_regular points faces f :
  tri_vol points f <> 0 -> eff_vol points faces f = tri_vol points f.
Proof.
  intros H. unfold eff_vol.
  destruct (Req_dec_T (tri_vol points f) 0) as [Hz|_]; [contradiction | reflexivity].
Qed.

Lemma Rsum_pos_all (l : list R) :
  l <> [] -> Forall (fun x => 0 < x) l -> 0 < Rsum l.
Proof.
  intros Hne Hall. destruct l as [|x l]; [congruence|].
  apply Rsum_pos.
  - apply Forall_impl with (2 := Hall). intros y Hy. simpl in Hy. lra.
  - apply Exists_cons_hd. exact (Forall_inv Hall).
Qed.

Lemma Rsum_skip_zero {A : Type} (g : A -> R) (pre post : list A) (x : A) :
  g x = 0 -> Rsum (map g (pre ++ x :: post)) = Rsum (map g (pre ++ post)).
Proof.
  intros H. rewrite !map_app, !Rsum_app. cbn [map]. rewrite Rsum_cons, H. ring.
Qed.

(** C5 (amended). In a valid mesh with exactly one zero-area triangle among
    triangles of positive area, [computeAB] raises no error, no triangle is
    left with a zero divisor, and the local stiffness block of the zero-area
    triangle is computed with the mean of [vol] over all the triangles of
    the mesh, the zero-area one counted: the sum of the volumes of the
    others divided by the number of all triangles. *)
Theorem one_degenerate_triangle (points : list (list R))
  (pre post : list (list Z)) (f0 : list Z) :
  valid_mesh points (pre ++ f0 :: post) = true ->
  tri_vol points f0 = 0 ->
  Forall (fun f => 0 < tri_vol points f) (pre ++ post) ->
  pre ++ post <> [] ->
  exists loc A B,
    computeAB_locals points (pre ++ f0 :: post) = Ok loc
    /\ computeAB points (pre ++ f0 :: post) = Ok (A, B)
    /\ Forall (fun v => v <> 0) (vol_sub loc)
    /\ nth (length pre) (localA loc) []
       = stiffness_block
           (Rsum (map (tri_vol points) (pre ++ post))
            / INR (length (pre ++ f0 :: post)))
           (tri_a0 points f0) (tri_a1 points f0) (tri_a0110 points f0).
Proof.
  intros Hv H0 Hpos Hne.
  set (faces := pre ++ f0 :: post) in *.
  assert (Hmean : mesh_vol_mean points faces
                  = Rsum (map (tri_vol points) (pre ++ post)) / INR (length faces)).
  { unfold mesh_vol_mean, np_mean, faces.
    rewrite (Rsum_skip_zero _ _ _ _ H0), length_map. reflexivity. }
  assert (Hmpos : 0 < mesh_vol_mean points faces).
  { rewrite Hmean. apply Rdiv_lt_0_compat.
    - apply Rsum_pos_all.
      + intros Hnil. apply map_eq_nil in Hnil. contradiction.
      + apply Forall_map. exact Hpos.
    - apply lt_0_INR. unfold faces. rewrite length_app. simpl. lia. }
  eexists. eexists. eexists.
  split; [exact (computeAB_locals_valid _ _ Hv)|].
  split; [exact (computeAB_valid _ _ Hv)|].
  cbn [vol_sub localA]. split.
  - apply Forall_map, Forall_forall. intros f Hf.
    unfold faces in Hf. apply in_app_or in Hf.
    assert (Hcase : f = f0 \/ In f (pre ++ post)).
    { destruct Hf as [Hf|[Hf|Hf]]; [right | left | right]; auto.
      - apply in_or_app. auto.
      - apply in_or_app. auto. }
    destruct Hcase as [->|Hin].
    + rewrite (eff_vol_degenerate _ _ _ H0). lra.
    + rewrite Forall_forall in Hpos. specialize (Hpos f Hin).
      rewrite eff_vol_regular; lra.
  - rewrite (nth_map_in _ faces (length pre) [])
      by (unfold faces; rewrite length_app; simpl; lia).
    replace (nth (length pre) faces []) with f0
      by (unfold faces; rewrite nth_middle; reflexivity).
    unfold face_stiffness.
    rewrite (eff_vol_degenerate _ _ _ H0), Hmean. reflexivity.
Qed.

Lemma one_degenerate_triangle_witness :
  valid_mesh flat_points ([[0; 1; 2]%Z] ++ [0; 1; 3]%Z :: []) = true
  /\ tri_vol flat_points [0; 1; 3]%Z = 0
  /\ Forall (fun f => 0 < tri_vol flat_points f) ([[0; 1; 2]%Z] ++ [])
  /\ [[0; 1; 2]%Z] ++ [] <> []
  /\ exists loc A B,
      computeAB_locals flat_points ([[0; 1; 2]%Z] ++ [0; 1; 3]%Z :: []) = Ok loc
      /\ computeAB flat_points ([[0; 1; 2]%Z] ++ [0; 1; 3]%Z :: []) = Ok (A, B)
      /\ Forall (fun v => v <> 0) (vol_sub loc)
      /\ nth (length [[0; 1; 2]%Z]) (localA loc) []
         = stiffness_block
             (Rsum (map (tri_vol flat_points) ([[0; 1; 2]%Z] ++ []))
              / INR (length ([[0; 1; 2]%Z] ++ [0; 1; 3]%Z :: [])))
             (tri_a0 flat_points [0; 1; 3]%Z) (tri_a1 flat_points [0; 1; 3]%Z)
             (tri_a0110 flat_points [0; 1; 3]%Z).
Proof.
  assert (Hpos : Forall (fun f => 0 < tri_vol flat_points f) ([[0; 1; 2]%Z] ++ [])).
  { repeat constructor. rewrite flat_vol_0. lra. }
  assert (Hne : [[0; 1; 2]%Z] ++ [] <> []) by discriminate.
  repeat split; try assumption; try reflexivity; try exact flat_vol_1.
  exact (one_degenerate_triangle flat_points [[0; 1; 2]%Z] [] [0; 1; 3]%Z
           eq_refl flat_vol_1 Hpos Hne).
Defined.

(** C5 fails as stated: in the flat mesh the zero-area triangle does not get
    the mean volume of the other triangles (here 1) but the mean over both
    triangles (1/2), and the two give different stiffness blocks. *)
Lemma mean_of_others_counterexample :
  valid_mesh flat_points flat_faces = true
  /\ tri_vol flat_points (nth 1 flat_faces []) = 0
  /\ 0 < tri_vol flat_points (nth 0 flat_faces [])
  /\ exists loc,
      computeAB_locals flat_points flat_faces = Ok loc
      /\ nth 1 (localA loc) []
         <> stiffness_block
              (np_mean (map (tri_vol flat_points) [nth 0 flat_faces []]))
              (tri_a0 flat_points (nth 1 flat_faces []))
              (tri_a1 flat_points (nth 1 flat_faces []))
              (tri_a0110 flat_points (nth 1 flat_faces [])).
Proof.
  split; [reflexivity|]. split; [exact flat_vol_1|].
  split; [cbn [flat_faces nth]; rewrite flat_vol_0; lra|].
  eexists. split; [exact (computeAB_locals_valid _ _ flat_valid)|].
  cbn [localA flat_faces map nth]. fold flat_faces.
  rewrite flat_eff_vol_1. unfold np_mean. cbn [map length INR].
  rewrite flat_vol_0.
  destruct flat_scalars_1 as (-> & -> & ->).
  unfold Rsum. cbn [fold_left].
  cbv [stiffness_block mscale madd msub tA00_unit tA11_unit tA0110_unit zipWith map].
  intros H. injection H as H _. lra.
Qed.

(** ** The sum of all the entries of an assembled matrix *)

Lemma in_zrange (n x : Z) : In x (zrange n) <-> (0 <= x < n)%Z.
Proof.
  unfold zrange. rewrite in_map_iff. split.
  - intros (k & <- & Hk). apply in_seq in Hk. lia.
  - intros H. exists (Z.to_nat x). split; [lia|]. apply in_seq. lia.
Qed.

Lemma NoDup_zrange (n : Z) : NoDup (zrange n).
Proof.
  unfold zrange. apply Injective_map_NoDup.
  - intros a b H. lia.
  - apply seq_NoDup.
Qed.

Lemma Rsum_pick (g : Z -> R) (c : Z) (l : list Z) :
  NoDup l -> In c l ->
  Rsum (map (fun j => if (c =? j)%Z then g j else 0) l) = g c.
Proof.
  induction 1 as [|x l Hx Hnd IH]; intros Hin; [contradiction|].
  cbn [map]. rewrite Rsum_cons. destruct Hin as [->|Hin].
  - rewrite Z.eqb_refl, Rsum_map_zero; [ring|].
    intros y Hy. destruct (Z.eqb_spec c y) as [->|_]; [contradiction | reflexivity].
  - rewrite (IH Hin).
    destruct (Z.eqb_spec c x) as [->|_]; [contradiction | ring].
Qed.

Lemma grid_sum_hit (n m r c : Z) (v : R) :
  (0 <= r < n)%Z -> (0 <= c < m)%Z ->
  Rsum (map (fun i => Rsum (map (fun j => hit i j (r, c, v)) (zrange m))) (zrange n))
  = v.
Proof.
  intros Hr Hc.
  rewrite (Rsum_map_ext _ (fun i => if (r =? i)%Z then v else 0)).
  - apply (Rsum_pick (fun _ => v)); [apply NoDup_zrange | apply in_zrange, Hr].
  - intros i _. unfold hit. destruct (r =? i)%Z; cbn [andb].
    + apply (Rsum_pick (fun _ => v)); [apply NoDup_zrange | apply in_zrange, Hc].
    + apply Rsum_map_zero. reflexivity.
Qed.

Lemma mat_sum_triplets (sh : Z * Z) (ts : list (Z * Z * R)) :
  Forall (in_shape sh) ts ->
  mat_sum (mk_csr sh ts) = Rsum (map snd ts).
Proof.
  unfold mat_sum, entry. cbn [shape triplets].
  induction 1 as [|[[r c] v] ts [Hr Hc] _ IH]; cbn [map].
  - rewrite Rsum_nil. apply Rsum_map_zero. intros i _.
    apply Rsum_map_zero. reflexivity.
  - rewrite Rsum_cons, <- IH. cbn [snd].
    etransitivity;
      [| apply (f_equal (fun x => x + _));
         exact (grid_sum_hit (fst sh) (snd sh) r c v Hr Hc)].
    cbv beta. rewrite <- Rsum_map_plus. apply Rsum_map_ext. intros i _.
    rewrite <- Rsum_map_plus. apply Rsum_map_ext. intros j _.
    apply Rsum_cons.
Qed.

Lemma fold_left_max_ge (l : list Z) (a : Z) :
  (a <= fold_left Z.max l a)%Z
  /\ forall x, In x l -> (x <= fold_left Z.max l a)%Z.
Proof.
  revert a. induction l as [|y l IH]; intros a; simpl.
  - split; [lia | contradiction].
  - destruct (IH (Z.max a y)) as [H1 H2]. split; [lia|].
    intros x [->|Hx]; [lia | apply H2, Hx].
Qed.

Lemma fold_left_max_in (l : list Z) (a : Z) :
  fold_left Z.max l a = a \/ In (fold_left Z.max l a) l.
Proof.
  revert a. induction l as [|y l IH]; intros a; simpl; [auto|].
  destruct (IH (Z.max a y)) as [H|H]; [|auto].
  rewrite H. destruct (Z.max_spec a y) as [[_ ->]|[_ ->]]; auto.
Qed.

Lemma zmax_ge (l : list Z) (x : Z) : In x l -> (x <= zmax l)%Z.
Proof.
  destruct l as [|a l]; [contradiction|]. simpl.
  destruct (fold_left_max_ge l a) as [H1 H2].
  intros [<-|Hx]; [exact H1 | apply H2, Hx].
Qed.

Lemma zmax_in (l : list Z) : l <> [] -> In (zmax l) l.
Proof.
  destruct l as [|a l]; [congruence|]. intros _. simpl.
  destruct (fold_left_max_in l a) as [->|H]; auto.
Qed.

Lemma in_tile_indices (f : list Z) (x : Z) :
  length f = 3%nat -> In x (concat (tile31 f)) <-> In x f.
Proof.
  intros Hf. destruct f as [|a [|b [|c [|? ?]]]]; try discriminate Hf.
  simpl. intuition.
Qed.

Lemma in_transpose_indices (f : list Z) (x : Z) :
  length f = 3%nat -> In x (concat (transpose (tile31 f))) <-> In x f.
Proof.
  intros Hf. destruct f as [|a [|b [|c [|? ?]]]]; try discriminate Hf.
  simpl. intuition.
Qed.

Lemma in_I_new (faces : list (list Z)) (x : Z) :
  Forall (fun f => length f = 3%nat) faces ->
  In x (I_new faces) <-> exists f, In f faces /\ In x f.
Proof.
  intros Hlen. unfold I_new. rewrite flatten_map, in_concat.
  rewrite Forall_forall in Hlen. split.
  - intros (l & Hl & Hx). apply in_map_iff in Hl as (f & <- & Hf).
    exists f. split; [exact Hf|]. apply (in_tile_indices f x (Hlen f Hf)), Hx.
  - intros (f & Hf & Hx). exists (concat (tile31 f)). split.
    + apply in_map_iff. exists f. auto.
    + apply (in_tile_indices f x (Hlen f Hf)), Hx.
Qed.

Lemma in_J_new (faces : list (list Z)) (x : Z) :
  Forall (fun f => length f = 3%nat) faces ->
  In x (J_new faces) <-> exists f, In f faces /\ In x f.
Proof.
  intros Hlen. unfold J_new. rewrite flatten_map, in_concat.
  rewrite Forall_forall in Hlen. split.
  - intros (l & Hl & Hx). apply in_map_iff in Hl as (f & <- & Hf).
    exists f. split; [exact Hf|]. apply (in_transpose_indices f x (Hlen f Hf)), Hx.
  - intros (f & Hf & Hx). exists (concat (transpose (tile31 f))). split.
    + apply in_map_iff. exists f. auto.
    + apply (in_transpose_indices f x (Hlen f Hf)), Hx.
Qed.

Lemma face_triplets_indices (f : list Z) (blk : list (list R)) (t : Z * Z * R) :
  length f = 3%nat -> In t (face_triplets f blk) ->
  In (fst (fst t)) f /\ In (snd (fst t)) f.
Proof.
  intros Hf Ht. destruct t as [[r c] v]. unfold face_triplets in Ht.
  apply in_combine_l in Ht. cbn [fst snd].
  split.
  - apply in_combine_l in Ht. apply (in_tile_indices f r Hf), Ht.
  - apply in_combine_r in Ht. apply (in_transpose_indices f c Hf), Ht.
Qed.

Lemma triplets_in_shape points faces (blk : list Z -> list (list R)) :
  valid_mesh points faces = true ->
  Forall (in_shape (zmax (I_new faces) + 1, zmax (J_new faces) + 1)%Z)
         (concat (map (fun f => face_triplets f (blk f)) faces)).
Proof.
  intros Hv. pose proof (valid_mesh_face_length _ _ Hv) as Hlen.
  apply Forall_concat_map. intros f Hf. apply Forall_forall. intros t Ht.
  assert (Hf3 : length f = 3%nat) by (rewrite Forall_forall in Hlen; auto).
  destruct (face_triplets_indices f (blk f) t Hf3 Ht) as [Hr Hc].
  destruct (valid_mesh_face _ _ _ Hv Hf) as (i & j & k & Heq & Hi & Hj & Hk).
  assert (Hnonneg : forall x, In x f -> (0 <= x)%Z).
  { intros x Hx. subst f. simpl in Hx. intuition lia. }
  unfold in_shape. cbn [fst snd]. split.
  - split; [apply Hnonneg, Hr|].
    assert (fst (fst t) <= zmax (I_new faces))%Z; [|lia].
    apply zmax_ge, (in_I_new faces _ Hlen). eauto.
  - split; [apply Hnonneg, Hc|].
    assert (snd (fst t) <= zmax (J_new faces))%Z; [|lia].
    apply zmax_ge, (in_J_new faces _ Hlen). eauto.
Qed.

Lemma face_mass_sum (f : list Z) (v : R) :
  length f = 3%nat ->
  Rsum (map snd (face_triplets f (mass_block v))) = v / 2.
Proof.
  intros Hf. destruct f as [|a [|b [|c [|? ?]]]]; try discriminate Hf.
  cbv [mass_block mscale tB_unit ones33 eye3 zipWith map face_triplets
       tile31 transpose concat app combine snd Rsum fold_left].
  lra.
Qed.

Lemma mat_sum_mass points faces :
  valid_mesh points faces = true ->
  mat_sum (mk_csr (zmax (I_new faces) + 1, zmax (J_new faces) + 1)%Z
             (concat (map (fun f => face_triplets f (face_mass points faces f)) faces)))
  = Rsum (map (fun f => eff_vol points faces f / 2) faces).
Proof.
  intros Hv. rewrite mat_sum_triplets by (apply triplets_in_shape with (1 := Hv)).
  rewrite concat_map, map_map, Rsum_concat_map.
  apply Rsum_map_ext. intros f Hf. apply face_mass_sum.
  pose proof (valid_mesh_face_length _ _ Hv) as Hlen.
  rewrite Forall_forall in Hlen. auto.
Qed.

Lemma tri_vol_nonneg points f : 0 <= tri_vol points f.
Proof. unfold tri_vol, norm. apply sqrt_pos. Qed.

Lemma Rsum_map_le {A : Type} (g h : A -> R) (l : list A) :
  (forall x, In x l -> g x <= h x) -> Rsum (map g l) <= Rsum (map h l).
Proof.
  induction l as [|x l IH]; intros H; cbn [map].
  - lra.
  - rewrite !Rsum_cons.
    assert (g x <= h x) by (apply H; simpl; auto).
    assert (Rsum (map g l) <= Rsum (map h l))
      by (apply IH; intros y Hy; apply H; simpl; auto).
    lra.
Qed.

Lemma Rsum_map_lt {A : Type} (g h : A -> R) (l : list A) :
  (forall x, In x l -> g x <= h x) -> Exists (fun x => g x < h x) l ->
  Rsum (map g l) < Rsum (map h l).
Proof.
  intros Hle Hex. induction Hex as [x l Hx | x l _ IH]; cbn [map]; rewrite !Rsum_cons.
  - assert (Rsum (map g l) <= Rsum (map h l))
      by (apply Rsum_map_le; intros y Hy; apply Hle; simpl; auto).
    lra.
  - assert (g x <= h x) by (apply Hle; simpl; auto).
    assert (Rsum (map g l) < Rsum (map h l))
      by (apply IH; intros y Hy; apply Hle; simpl; auto).
    lra.
Qed.

Lemma mesh_vol_mean_pos points faces :
  Exists (fun f => tri_vol points f <> 0) faces ->
  0 < mesh_vol_mean points faces.
Proof.
  intros Hex. unfold mesh_vol_mean, np_mean. apply Rdiv_lt_0_compat.
  - apply Rsum_pos.
    + apply Forall_map, Forall_forall. intros f _. apply tri_vol_nonneg.
    + apply Exists_exists in Hex as (f & Hf & Hne). apply Exists_exists.
      exists (tri_vol points f). split; [apply in_map, Hf|].
      pose proof (tri_vol_nonneg points f). lra.
  - apply lt_0_INR. rewrite length_map.
    destruct Hex; simpl; lia.
Qed.

Lemma mass_block_sum (v : R) : Rsum (concat (mass_block v)) = v / 2.
Proof.
  cbv [mass_block mscale tB_unit ones33 eye3 zipWith map concat app Rsum fold_left].
  lra.
Qed.

(** C9. In a valid mesh in which at least one but not all triangles have
    zero area, the mean volume (which is positive) is also what the local
    mass block of a zero-area triangle is built from: that block is
    [vol_mean * tB], its entries sum to [vol_mean / 2], and the sum of all
    the entries of [B] is strictly larger than the total area of the mesh. *)
Theorem spurious_mass (points : list (list R)) (faces : list (list Z)) :
  valid_mesh points faces = true ->
  Exists (fun f => tri_vol points f = 0) faces ->
  Exists (fun f => tri_vol points f <> 0) faces ->
  exists loc A B,
    computeAB_locals points faces = Ok loc
    /\ computeAB points faces = Ok (A, B)
    /\ 0 < vol_mean loc
    /\ (forall t, (t < length faces)%nat ->
          tri_vol points (nth t faces []) = 0 ->
          nth t (localB loc) [] = mscale (vol_mean loc) tB_unit
          /\ Rsum (concat (nth t (localB loc) [])) = vol_mean loc / 2)
    /\ total_area points faces < mat_sum B.
Proof.
  intros Hv Hdeg Hreg.
  pose proof (mesh_vol_mean_pos _ _ Hreg) as Hmean.
  eexists. eexists. eexists.
  split; [exact (computeAB_locals_valid _ _ Hv)|].
  split; [exact (computeAB_valid _ _ Hv)|].
  cbn [vol_mean localB]. split; [exact Hmean|]. split.
  - intros t Ht H0.
    rewrite (nth_map_in _ faces t []) by exact Ht.
    rewrite (eff_vol_degenerate _ _ _ H0).
    split; [reflexivity | apply mass_block_sum].
  - rewrite (mat_sum_mass _ _ Hv). unfold total_area, tri_area.
    apply Rsum_map_lt.
    + intros f _. pose proof (tri_vol_nonneg points f).
      unfold eff_vol. destruct (Req_dec_T (tri_vol points f) 0) as [->|_]; lra.
    + apply Exists_exists in Hdeg as (f & Hf & H0). apply Exists_exists.
      exists f. split; [exact Hf|].
      rewrite (eff_vol_degenerate _ _ _ H0), H0. lra.
Qed.

Lemma spurious_mass_witness :
  valid_mesh flat_points flat_faces = true
  /\ Exists (fun f => tri_vol flat_points f = 0) flat_faces
  /\ Exists (fun f => tri_vol flat_points f <> 0) flat_faces
  /\ exists loc A B,
      computeAB_locals flat_points flat_faces = Ok loc
      /\ computeAB flat_points flat_faces = Ok (A, B)
      /\ 0 < vol_mean loc
      /\ (forall t, (t < length flat_faces)%nat ->
            tri_vol flat_points (nth t flat_faces []) = 0 ->
            nth t (localB loc) [] = mscale (vol_mean loc) tB_unit
            /\ Rsum (concat (nth t (localB loc) [])) = vol_mean loc / 2)
      /\ total_area flat_points flat_faces < mat_sum B.
Proof.
  assert (Hdeg : Exists (fun f => tri_vol flat_points f = 0) flat_faces).
  { apply Exists_cons_tl, Exists_cons_hd. exact flat_vol_1. }
  assert (Hreg : Exists (fun f => tri_vol flat_points f <> 0) flat_faces).
  { apply Exists_cons_hd. rewrite flat_vol_0. lra. }
  split; [reflexivity|]. split; [exact Hdeg|]. split; [exact Hreg|].
  exact (spurious_mass flat_points flat_faces eq_refl Hdeg Hreg).
Defined.

(** C4 (amended). For every valid input in which no triangle has zero area
    (or all of them have), the sum of all the entries of the mass matrix [B]
    is the total surface area of the mesh. *)
Theorem total_mass (points : list (list R)) (faces : list (list Z)) :
  valid_mesh points faces = true ->
  Forall (fun f => tri_vol points f <> 0) faces
  \/ Forall (fun f => tri_vol points f = 0) faces ->
  exists A B,
    computeAB points faces = Ok (A, B)
    /\ mat_sum B = total_area points faces.
Proof.
  intros Hv Hcase. eexists. eexists.
  split; [exact (computeAB_valid _ _ Hv)|].
  rewrite (mat_sum_mass _ _ Hv). unfold total_area, tri_area.
  apply Rsum_map_ext. intros f Hf. f_equal.
  destruct Hcase as [Hreg|Hdeg].
  - rewrite Forall_forall in Hreg. apply eff_vol_regular, Hreg, Hf.
  - rewrite Forall_forall in Hdeg.
    rewrite (eff_vol_degenerate _ _ _ (Hdeg f Hf)), (Hdeg f Hf).
    unfold mesh_vol_mean, np_mean.
    rewrite Rsum_map_zero by exact Hdeg. unfold Rdiv. ring.
Qed.

Lemma total_mass_witness :
  valid_mesh cube_points [[0; 1; 5]%Z] = true
  /\ (Forall (fun f => tri_vol cube_points f <> 0) [[0; 1; 5]%Z]
      \/ Forall (fun f => tri_vol cube_points f = 0) [[0; 1; 5]%Z])
  /\ exists A B,
      computeAB cube_points [[0; 1; 5]%Z] = Ok (A, B)
      /\ mat_sum B = total_area cube_points [[0; 1; 5]%Z].
Proof.
  assert (Hreg : Forall (fun f => tri_vol cube_points f <> 0) [[0; 1; 5]%Z]).
  { repeat constructor.
    unfold tri_vol, norm, e1, e2.
    change (corner cube_points [0; 1; 5]%Z 0) with (0, 0, 0).
    change (corner cube_points [0; 1; 5]%Z 1) with (1, 0, 0).
    change (corner cube_points [0; 1; 5]%Z 2) with (0, 1, 0).
    cbn [vsub cross dot].
    replace (_ + _ + _) with 1 by lra. rewrite sqrt_1. lra. }
  split; [reflexivity|]. split; [left; exact Hreg|].
  exact (total_mass cube_points [[0; 1; 5]%Z] eq_refl (or_introl Hreg)).
Defined.

(** C4 fails as stated: the flat mesh is a valid input, and the entries of
    its mass matrix do not sum to its area. *)
Lemma total_mass_counterexample :
  valid_mesh flat_points flat_faces = true
  /\ exists A B,
      computeAB flat_points flat_faces = Ok (A, B)
      /\ mat_sum B <> total_area flat_points flat_faces.
Proof.
  split; [reflexivity|]. eexists. eexists.
  split; [exact (computeAB_valid _ _ flat_valid)|].
  rewrite (mat_sum_mass _ _ flat_valid).
  unfold total_area, tri_area, flat_faces. cbn [map]. fold flat_faces.
  rewrite flat_eff_vol_1, flat_vol_0, flat_vol_1.
  rewrite (eff_vol_regular flat_points flat_faces [0; 1; 2]%Z)
    by (rewrite flat_vol_0; lra).
  rewrite flat_vol_0. unfold Rsum. cbn [fold_left]. lra.
Qed.

(** ** The shape of the assembled matrices *)

Lemma covered_spec points faces (v : Z) :
  covered points faces = true ->
  (0 <= v < Z.of_nat (length points))%Z ->
  exists f, In f faces /\ In v f.
Proof.
  unfold covered. intros Hc Hv.
  rewrite forallb_forall in Hc. specialize (Hc v (proj2 (in_zrange _ _) Hv)).
  apply existsb_exists in Hc as (f & Hf & Hex).
  apply existsb_exists in Hex as (x & Hx & Heq).
  apply Z.eqb_eq in Heq. subst x. eauto.
Qed.

Lemma zmax_indices points faces (idx : list Z) :
  valid_mesh points faces = true ->
  covered points faces = true ->
  (forall x, In x idx <-> exists f, In f faces /\ In x f) ->
  zmax idx = (Z.of_nat (length points) - 1)%Z.
Proof.
  intros Hv Hc Hidx.
  pose proof (valid_mesh_points_nonempty _ _ Hv) as Hne.
  assert (Hn : (0 < Z.of_nat (length points))%Z).
  { destruct points; [congruence | simpl; lia]. }
  assert (Hlast : In (Z.of_nat (length points) - 1)%Z idx).
  { apply Hidx, (covered_spec _ _ _ Hc). lia. }
  pose proof (zmax_ge idx _ Hlast) as Hge.
  assert (Hin : In (zmax idx) idx).
  { apply zmax_in. intros Hnil. rewrite Hnil in Hlast. contradiction. }
  apply Hidx in Hin as (f & Hf & Hx).
  destruct (valid_mesh_face _ _ _ Hv Hf) as (i & j & k & -> & Hi & Hj & Hk).
  simpl in Hx. intuition lia.
Qed.

(** C8. For a valid mesh in which every vertex index of [points] is
    referenced by at least one face, [computeAB] returns two matrices and
    both are N x N, where N = len(points). *)
Theorem computeAB_shape (points : list (list R)) (faces : list (list Z)) :
  valid_mesh points faces = true ->
  covered points faces = true ->
  exists A B,
    computeAB points faces = Ok (A, B)
    /\ shape A = (Z.of_nat (length points), Z.of_nat (length points))
    /\ shape B = (Z.of_nat (length points), Z.of_nat (length points)).
Proof.
  intros Hv Hc. eexists. eexists.
  split; [exact (computeAB_valid _ _ Hv)|].
  pose proof (valid_mesh_face_length _ _ Hv) as Hlen.
  cbn [shape].
  rewrite (zmax_indices points faces (I_new faces) Hv Hc)
    by (intros x; apply in_I_new, Hlen).
  rewrite (zmax_indices points faces (J_new faces) Hv Hc)
    by (intros x; apply in_J_new, Hlen).
  split; f_equal; lia.
Qed.

Lemma computeAB_shape_witness :
  valid_mesh cube_points cube_faces = true
  /\ covered cube_points cube_faces = true
  /\ exists A B,
      computeAB cube_points cube_faces = Ok (A, B)
      /\ shape A = (Z.of_nat (length cube_points), Z.of_nat (length cube_points))
      /\ shape B = (Z.of_nat (length cube_points), Z.of_nat (length cube_points)).
Proof.
  split; [reflexivity|]. split; [reflexivity|].
  exact (computeAB_shape cube_points cube_faces eq_refl eq_refl).
Defined.

(** ** Assembly against the scatter-add of the specification *)

Lemma scatter_block_entry (M : dense) (f : list Z) (blk : list (list R)) (i j : Z) :
  length f = 3%nat -> is_sym33 blk ->
  scatter_block M f blk i j
  = M i j + Rsum (map (hit i j) (face_triplets f blk)).
Proof.
  intros Hf Hs.
  destruct f as [|a [|b [|c [|? ?]]]]; try discriminate Hf.
  destruct blk as [|[|m00 [|m01 [|m02 [|? ?]]]]
                     [|[|m10 [|m11 [|m12 [|? ?]]]]
                        [|[|m20 [|m21 [|m22 [|? ?]]]] [|? ?]]]];
    simpl in Hs; try contradiction.
  destruct Hs as (H01 & H02 & H12).
  rewrite face_triplets_explicit.
  unfold scatter_block, add_at, Rsum, hit. cbn [map fold_left nth].
  rewrite (Z.eqb_sym i a), (Z.eqb_sym i b), (Z.eqb_sym i c),
          (Z.eqb_sym j a), (Z.eqb_sym j b), (Z.eqb_sym j c).
  case_eqbs; cbn [andb]; lra.
Qed.

Lemma assemble_fold (blk : list Z -> list (list R)) (l : list (list Z))
  (M : dense) (i j : Z) :
  (forall f, In f l -> length f = 3%nat /\ is_sym33 (blk f)) ->
  fold_left (fun M' fb => scatter_block M' (fst fb) (snd fb))
            (map (fun f => (f, blk f)) l) M i j
  = M i j + Rsum (map (fun f => Rsum (map (hit i j) (face_triplets f (blk f)))) l).
Proof.
  revert M. induction l as [|f l IH]; intros M H; cbn [map fold_left].
  - rewrite Rsum_nil. ring.
  - rewrite IH by (intros g Hg; apply H; simpl; auto).
    cbn [fst snd]. destruct (H f (or_introl eq_refl)) as [Hf Hs].
    rewrite (scatter_block_entry M f (blk f) i j Hf Hs), Rsum_cons. ring.
Qed.

Lemma assemble_spec_entry (blk : list Z -> list (list R)) (faces : list (list Z))
  (sh : Z * Z) (i j : Z) :
  (forall f, In f faces -> length f = 3%nat /\ is_sym33 (blk f)) ->
  entry (mk_csr sh (concat (map (fun f => face_triplets f (blk f)) faces))) i j
  = assemble_spec faces (map blk faces) i j.
Proof.
  intros H. unfold assemble_spec.
  rewrite <- (map_id faces) at 2. rewrite combine_map.
  rewrite (assemble_fold blk faces (fun _ _ => 0) i j H).
  rewrite entry_concat_map. ring.
Qed.

(** C2. For every valid mesh the matrices [A] and [B] that [computeAB]
    returns are, entry for entry, the matrices obtained by adding the entry
    [(r, c)] of each triangle's local 3x3 block to the global entry
    [(idx[r], idx[c])], where [idx] is the triangle's index vector, summing
    the contributions of all the triangles. *)
Theorem assembly_is_scatter_add (points : list (list R)) (faces : list (list Z)) :
  valid_mesh points faces = true ->
  exists loc A B,
    computeAB_locals points faces = Ok loc
    /\ computeAB points faces = Ok (A, B)
    /\ forall i j,
        entry A i j = assemble_spec faces (localA loc) i j
        /\ entry B i j = assemble_spec faces (localB loc) i j.
Proof.
  intros Hv. eexists. eexists. eexists.
  split; [exact (computeAB_locals_valid _ _ Hv)|].
  split; [exact (computeAB_valid _ _ Hv)|].
  pose proof (valid_mesh_face_length _ _ Hv) as Hlen.
  rewrite Forall_forall in Hlen.
  intros i j. cbn [localA localB]. split.
  - apply (assemble_spec_entry (face_stiffness points faces)).
    intros f Hf. split; [apply Hlen, Hf | apply stiffness_block_sym].
  - apply (assemble_spec_entry (face_mass points faces)).
    intros f Hf. split; [apply Hlen, Hf | apply mass_block_sym].
Qed.

Lemma assembly_is_scatter_add_witness :
  valid_mesh cube_points cube_faces = true
  /\ exists loc A B,
      computeAB_locals cube_points cube_faces = Ok loc
      /\ computeAB cube_points cube_faces = Ok (A, B)
      /\ forall i j,
          entry A i j = assemble_spec cube_faces (localA loc) i j
          /\ entry B i j = assemble_spec cube_faces (localB loc) i j.
Proof.
  split; [reflexivity|].
  exact (assembly_is_scatter_add cube_points cube_faces eq_refl).
Defined.

(** C6. For every valid mesh [computeAB] raises no error and builds one
    local stiffness block and one local mass block for each triangle,
    degenerate or not; [vol_mean] is the mean of [vol] over every triangle
    of the mesh, the degenerate ones included; a triangle whose [vol] is
    exactly 0 gets [vol_mean] in its place while the others keep theirs;
    and it is this substituted [vol] that both local blocks of the triangle
    are built from ([vol * tB], and [1/vol] times the stiffness
    combination), the blocks from which [A] and [B] are assembled. *)
Theorem degenerate_vol_substitution (points : list (list R)) (faces : list (list Z)) :
  valid_mesh points faces = true ->
  exists loc A B,
    computeAB_locals points faces = Ok loc
    /\ computeAB points faces = Ok (A, B)
    /\ vol_raw loc = map (tri_vol points) faces
    /\ vol_mean loc = Rsum (vol_raw loc) / INR (length faces)
    /\ length (localA loc) = length faces
    /\ length (localB loc) = length faces
    /\ (forall t, (t < length faces)%nat ->
         (nth t (vol_raw loc) 0 = 0 -> nth t (vol_sub loc) 0 = vol_mean loc)
         /\ (nth t (vol_raw loc) 0 <> 0
             -> nth t (vol_sub loc) 0 = nth t (vol_raw loc) 0)
         /\ nth t (localB loc) [] = mscale (nth t (vol_sub loc) 0) tB_unit
         /\ nth t (localA loc) []
            = mscale (1 / nth t (vol_sub loc) 0)
                (msub (madd (mscale (tri_a0 points (nth t faces [])) tA00_unit)
                            (mscale (tri_a1 points (nth t faces [])) tA11_unit))
                      (mscale (tri_a0110 points (nth t faces [])) tA0110_unit)))
    /\ (forall i j,
         entry A i j = assemble_spec faces (localA loc) i j
         /\ entry B i j = assemble_spec faces (localB loc) i j).
Proof.
  intros Hv. eexists. eexists. eexists.
  split; [exact (computeAB_locals_valid _ _ Hv)|].
  split; [exact (computeAB_valid _ _ Hv)|].
  cbn [vol_raw vol_mean vol_sub localA localB].
  split; [reflexivity|].
  split; [unfold mesh_vol_mean, np_mean; rewrite length_map; reflexivity|].
  split; [apply length_map|]. split; [apply length_map|].
  split.
  - intros t Ht.
    rewrite !(nth_map_in _ faces t []) by exact Ht.
    split; [intros H; apply eff_vol_degenerate, H|].
    split; [intros H; apply eff_vol_regular, H|].
    split; reflexivity.
  - pose proof (valid_mesh_face_length _ _ Hv) as Hlen.
    rewrite Forall_forall in Hlen.
    intros i j. split.
    + apply (assemble_spec_entry (face_stiffness points faces)).
      intros f Hf. split; [apply Hlen, Hf | apply stiffness_block_sym].
    + apply (assemble_spec_entry (face_mass points faces)).
      intros f Hf. split; [apply Hlen, Hf | apply mass_block_sym].
Qed.

Lemma degenerate_vol_substitution_witness :
  valid_mesh flat_points flat_faces = true
  /\ exists loc A B,
      computeAB_locals flat_points flat_faces = Ok loc
      /\ computeAB flat_points flat_faces = Ok (A, B)
      /\ vol_raw loc = map (tri_vol flat_points) flat_faces
      /\ vol_mean loc = Rsum (vol_raw loc) / INR (length flat_faces)
      /\ length (localA loc) = length flat_faces
      /\ length (localB loc) = length flat_faces
      /\ (forall t, (t < length flat_faces)%nat ->
           (nth t (vol_raw loc) 0 = 0 -> nth t (vol_sub loc) 0 = vol_mean loc)
           /\ (nth t (vol_raw loc) 0 <> 0
               -> nth t (vol_sub loc) 0 = nth t (vol_raw loc) 0)
           /\ nth t (localB loc) [] = mscale (nth t (vol_sub loc) 0) tB_unit
           /\ nth t (localA loc) []
              = mscale (1 / nth t (vol_sub loc) 0)
                  (msub (madd (mscale (tri_a0 flat_points (nth t flat_faces []))
                                      tA00_unit)
                              (mscale (tri_a1 flat_points (nth t flat_faces []))
                                      tA11_unit))
                        (mscale (tri_a0110 flat_points (nth t flat_faces []))
                                tA0110_unit)))
      /\ (forall i j,
           entry A i j = assemble_spec flat_faces (localA loc) i j
           /\ entry B i j = assemble_spec flat_faces (localB loc) i j).
Proof.
  split.
  - reflexivity.
  - apply (degenerate_vol_substitution flat_points flat_faces). reflexivity.
Defined.

(** ** fem_laplacian *)

Lemma fem_laplacian_small eigsh points faces :
  (length points < 5)%nat ->
  fem_laplacian eigsh points faces = ([Print too_small_message], Ok sentinel).
Proof.
  intros H. unfold fem_laplacian.
  apply Nat.ltb_lt in H. rewrite H. reflexivity.
Qed.

(** C7. For every points sequence with fewer than 5 entries and any faces,
    [fem_laplacian] returns exactly the sentinel [-1, -1, -1, -1, -1] and
    does not call [computeAB] (nor the solver); with 5 points or more it
    calls [computeAB], hands [A] and [B] to the solver for the generalized
    problem ([k = 3], smallest magnitude) and returns the eigenvalues the
    solver gives, as a list in the solver's order. *)
Theorem fem_laplacian_cases
  (eigsh : csr -> nat -> csr -> which_mode -> result (list R * list (list R)))
  (points : list (list R)) (faces : list (list Z)) :
  ((length points < 5)%nat ->
   fem_laplacian eigsh points faces = ([Print too_small_message], Ok sentinel)
   /\ ~ In Call_computeAB (fst (fem_laplacian eigsh points faces))
   /\ ~ In Call_eigsh (fst (fem_laplacian eigsh points faces)))
  /\ ((5 <= length points)%nat ->
      forall A B vals vecs,
        computeAB points faces = Ok (A, B) ->
        eigsh A 3%nat B SM = Ok (vals, vecs) ->
        fem_laplacian eigsh points faces
        = ([Call_computeAB; Call_eigsh], Ok (PyList_float vals))).
Proof.
  split.
  - intros H. rewrite (fem_laplacian_small eigsh points faces H).
    split; [reflexivity|].
    split; simpl; intros [Hcontra|[]]; discriminate Hcontra.
  - intros H A B vals vecs HAB Heig. unfold fem_laplacian.
    apply Nat.ltb_ge in H. rewrite H.
    rewrite HAB. unfold emit, io_bind, io_ret. cbn [fst snd].
    rewrite Heig. reflexivity.
Qed.

Lemma fem_laplacian_cases_witness :
  (length flat_points < 5)%nat
  /\ fem_laplacian failing_eigsh flat_points flat_faces
     = ([Print too_small_message], Ok sentinel)
  /\ (5 <= length cube_points)%nat
  /\ exists A B,
      computeAB cube_points cube_faces = Ok (A, B)
      /\ constant_eigsh A 3%nat B SM = Ok ([0; 1; 4], [])
      /\ fem_laplacian constant_eigsh cube_points cube_faces
         = ([Call_computeAB; Call_eigsh], Ok (PyList_float [0; 1; 4])).
Proof.
  split; [simpl; lia|]. split.
  - apply (proj1 (fem_laplacian_cases failing_eigsh flat_points flat_faces)).
    simpl. lia.
  - split; [simpl; lia|].
    eexists. eexists. split; [exact (computeAB_valid _ _ (eq_refl : valid_mesh cube_points cube_faces = true))|].
    split; [reflexivity|].
    eapply (proj2 (fem_laplacian_cases constant_eigsh cube_points cube_faces)).
    + simpl. lia.
    + exact (computeAB_valid _ _ (eq_refl : valid_mesh cube_points cube_faces = true)).
    + reflexivity.
Defined.

(** C10. For every points sequence with fewer than 5 entries the result of
    [fem_laplacian] is the sentinel whatever [faces] is: it does not depend
    on [faces], and no error is raised even for faces that [computeAB]
    would reject. *)
Theorem fem_laplacian_small_ignores_faces
  (eigsh : csr -> nat -> csr -> which_mode -> result (list R * list (list R)))
  (points : list (list R)) (faces faces' : list (list Z)) :
  (length points < 5)%nat ->
  fem_laplacian eigsh points faces = fem_laplacian eigsh points faces'
  /\ snd (fem_laplacian eigsh points faces) = Ok sentinel.
Proof.
  intros H.
  rewrite (fem_laplacian_small eigsh points faces H),
          (fem_laplacian_small eigsh points faces' H).
  split; reflexivity.
Qed.

Lemma fem_laplacian_small_ignores_faces_witness :
  (length flat_points < 5)%nat
  /\ computeAB flat_points malformed_faces = Raise IndexError
  /\ fem_laplacian failing_eigsh flat_points malformed_faces
     = fem_laplacian failing_eigsh flat_points flat_faces
  /\ snd (fem_laplacian failing_eigsh flat_points malformed_faces) = Ok sentinel.
Proof.
  split; [simpl; lia|]. split; [reflexivity|].
  apply (fem_laplacian_small_ignores_faces failing_eigsh flat_points
           malformed_faces flat_faces).
  simpl. lia.
Defined.

(** ** The docstring example

    Three entries of the matrices printed in the docstring of [computeAB]:
    [A[0,0] = 1.5], [A[0,1] = -1.0] and [B[0,0] = 0.25]. *)

Lemma cube_valid : valid_mesh cube_points cube_faces = true.
Proof. reflexivity. Qed.

Lemma cube_unit_faces (f : list Z) :
  In f [[0; 2; 4]; [0; 1; 4]; [0; 1; 7]]%Z ->
  eff_vol cube_points cube_faces f = 1
  /\ tri_a0 cube_points f = 2
  /\ tri_a1 cube_points f = 1
  /\ tri_a0110 cube_points f = 1.
Proof.
  intros Hf.
  assert (Hvol : tri_vol cube_points f = 1
                 /\ tri_a0 cube_points f = 2
                 /\ tri_a1 cube_points f = 1
                 /\ tri_a0110 cube_points f = 1).
  { simpl in Hf. destruct Hf as [<-|[<-|[<-|[]]]];
      unfold tri_vol, norm, tri_a0, tri_a1, tri_a0110, e1, e2.
    - change (corner cube_points [0; 2; 4]%Z 0) with (0, 0, 0).
      change (corner cube_points [0; 2; 4]%Z 1) with (0, 0, 1).
      change (corner cube_points [0; 2; 4]%Z 2) with (1, 0, 1).
      cbn [vsub cross dot].
      repeat split; try lra.
      replace (_ + _ + _) with 1 by lra. apply sqrt_1.
    - change (corner cube_points [0; 1; 4]%Z 0) with (0, 0, 0).
      change (corner cube_points [0; 1; 4]%Z 1) with (1, 0, 0).
      change (corner cube_points [0; 1; 4]%Z 2) with (1, 0, 1).
      cbn [vsub cross dot].
      repeat split; try lra.
      replace (_ + _ + _) with 1 by lra. apply sqrt_1.
    - change (corner cube_points [0; 1; 7]%Z 0) with (0, 0, 0).
      change (corner cube_points [0; 1; 7]%Z 1) with (1, 0, 0).
      change (corner cube_points [0; 1; 7]%Z 2) with (1, 1, 0).
      cbn [vsub cross dot].
      repeat split; try lra.
      replace (_ + _ + _) with 1 by lra. apply sqrt_1. }
  destruct Hvol as (Hv & H0 & H1 & H01).
  rewrite eff_vol_regular by (rewrite Hv; lra). auto.
Qed.

Lemma Rsum_cube_faces (g : list Z -> R) :
  Rsum (map g cube_faces)
  = g [0; 2; 4]%Z + g [0; 1; 4]%Z + g [2; 3; 4]%Z
    + g [3; 4; 5]%Z + g [3; 5; 6]%Z + g [0; 1; 7]%Z.
Proof.
  unfold cube_faces, Rsum. cbn [map fold_left]. ring.
Qed.

Example cube_docstring_entries :
  exists A B,
    computeAB cube_points cube_faces = Ok (A, B)
    /\ entry A 0 0 = 1.5
    /\ entry A 0 1 = -1.0
    /\ entry B 0 0 = 0.25.
Proof.
  eexists. eexists. split; [exact (computeAB_valid _ _ cube_valid)|].
  rewrite !entry_concat_map.
  destruct (cube_unit_faces [0; 2; 4]%Z) as (Ha & Ha0 & Ha1 & Ha01); [simpl; auto|].
  destruct (cube_unit_faces [0; 1; 4]%Z) as (Hb & Hb0 & Hb1 & Hb01); [simpl; auto|].
  destruct (cube_unit_faces [0; 1; 7]%Z) as (Hc & Hc0 & Hc1 & Hc01); [simpl; auto 6|].
  rewrite !Rsum_cube_faces. unfold face_stiffness, face_mass.
  rewrite Ha, Ha0, Ha1, Ha01, Hb, Hb0, Hb1, Hb01, Hc, Hc0, Hc1, Hc01.
  cbv [stiffness_block mass_block mscale madd msub tA00_unit tA11_unit
       tA0110_unit tB_unit ones33 eye3 zipWith face_triplets tile31 transpose
       concat app combine map hit Z.eqb Pos.eqb andb Rsum fold_left].
  repeat split; lra.
Qed.

(** ** Inputs that [computeAB] rejects *)

Example computeAB_empty : computeAB [] [] = Raise IndexError.
Proof. reflexivity. Qed.

Example computeAB_index_out_of_range :
  computeAB flat_points [[0; 1; 4]%Z] = Raise IndexError.
Proof. reflexivity. Qed.

Example computeAB_negative_index :
  computeAB flat_points [[0; 1; -1]%Z] = Raise ValueError.
Proof. reflexivity. Qed.

Example computeAB_four_indices :
  computeAB flat_points [[0; 1; 2; 3]%Z] = Raise ValueError.
Proof. reflexivity. Qed.

(** * Further properties of the code *)

(** ** Rows of the assembled matrices *)

Lemma row_sum_hit (m r c i : Z) (v : R) :
  (0 <= c < m)%Z ->
  Rsum (map (fun j => hit i j (r, c, v)) (zrange m))
  = if (r =? i)%Z then v else 0.
Proof.
  intros Hc. unfold hit. destruct (r =? i)%Z; cbn [andb].
  - apply (Rsum_pick (fun _ => v)); [apply NoDup_zrange | apply in_zrange, Hc].
  - apply Rsum_map_zero. reflexivity.
Qed.

Lemma row_sum_triplets (sh : Z * Z) (ts : list (Z * Z * R)) (i : Z) :
  Forall (in_shape sh) ts ->
  row_sum (mk_csr sh ts) i
  = Rsum (map (fun t => if (fst (fst t) =? i)%Z then snd t else 0) ts).
Proof.
  unfold row_sum, entry. cbn [shape triplets snd].
  induction 1 as [|[[r c] v] ts [_ Hc] _ IH]; cbn [map].
  - rewrite Rsum_nil. apply Rsum_map_zero. reflexivity.
  - rewrite Rsum_cons, <- IH. cbn [fst snd].
    rewrite <- (row_sum_hit (snd sh) r c i v Hc).
    rewrite <- Rsum_map_plus. apply Rsum_map_ext. intros j _.
    apply Rsum_cons.
Qed.

Lemma row_sum_by_face points faces (blk : list Z -> list (list R)) (i : Z) :
  valid_mesh points faces = true ->
  row_sum (mk_csr (zmax (I_new faces) + 1, zmax (J_new faces) + 1)%Z
             (concat (map (fun f => face_triplets f (blk f)) faces))) i
  = Rsum (map (fun f =>
                 Rsum (map (fun t => if (fst (fst t) =? i)%Z then snd t else 0)
                           (face_triplets f (blk f))))
              faces).
Proof.
  intros Hv. rewrite row_sum_triplets by (apply triplets_in_shape with (1 := Hv)).
  rewrite concat_map, map_map. apply Rsum_concat_map.
Qed.

Lemma stiffness_row_contrib (f : list Z) (v a0 a1 a0110 : R) (i : Z) :
  length f = 3%nat ->
  Rsum (map (fun t => if (fst (fst t) =? i)%Z then snd t else 0)
            (face_triplets f (stiffness_block v a0 a1 a0110)))
  = 0.
Proof.
  intros Hf. destruct f as [|a [|b [|c [|? ?]]]]; try discriminate Hf.
  cbv [stiffness_block mscale madd msub tA00_unit tA11_unit tA0110_unit
       zipWith map face_triplets tile31 transpose concat app combine
       fst snd Rsum fold_left].
  set (w := 1 / v).
  case_eqbs; nra.
Qed.

Lemma mass_row_contrib (f : list Z) (v : R) (i : Z) :
  length f = 3%nat ->
  Rsum (map (fun t => if (fst (fst t) =? i)%Z then snd t else 0)
            (face_triplets f (mass_block v)))
  = INR (occurrences f i) * v / 6.
Proof.
  intros Hf. destruct f as [|a [|b [|c [|? ?]]]]; try discriminate Hf.
  unfold occurrences. cbn [count_occ].
  cbv [mass_block mscale tB_unit ones33 eye3 zipWith map face_triplets
       tile31 transpose concat app combine fst snd Rsum fold_left].
  destruct (Z.eqb_spec a i), (Z.eqb_spec b i), (Z.eqb_spec c i);
    repeat match goal with
           | |- context [Z.eq_dec ?x ?y] => destruct (Z.eq_dec x y); try contradiction
           end;
    cbn [INR]; lra.
Qed.

Lemma stiffness_face_sum (f : list Z) (v a0 a1 a0110 : R) :
  length f = 3%nat ->
  Rsum (map snd (face_triplets f (stiffness_block v a0 a1 a0110))) = 0.
Proof.
  intros Hf. destruct f as [|a [|b [|c [|? ?]]]]; try discriminate Hf.
  cbv [stiffness_block mscale madd msub tA00_unit tA11_unit tA0110_unit
       zipWith map face_triplets tile31 transpose concat app combine
       snd Rsum fold_left].
  set (w := 1 / v). nra.
Qed.

(** X1. For every valid mesh in which some triangle has non-zero area (so
    that no [1.0/vol] divides by zero) each row of the stiffness matrix [A]
    sums to zero (the constant vector is in its null space), and so does the
    whole matrix: each of the three constant matrices has zero column
    sums. *)
Theorem stiffness_rows_sum_to_zero (points : list (list R)) (faces : list (list Z)) :
  valid_mesh points faces = true ->
  Exists (fun f => tri_vol points f <> 0) faces ->
  exists loc A B,
    computeAB_locals points faces = Ok loc
    /\ computeAB points faces = Ok (A, B)
    /\ Forall (fun v => 0 < v) (vol_sub loc)
    /\ (forall i, row_sum A i = 0)
    /\ mat_sum A = 0.
Proof.
  intros Hv Hex. eexists. eexists. eexists.
  split; [exact (computeAB_locals_valid _ _ Hv)|].
  split; [exact (computeAB_valid _ _ Hv)|].
  pose proof (valid_mesh_face_length _ _ Hv) as Hlen.
  rewrite Forall_forall in Hlen. cbn [vol_sub]. split; [|split].
  - apply Forall_map, Forall_forall. intros f _.
    unfold eff_vol. destruct (Req_dec_T (tri_vol points f) 0) as [_|Hne].
    + apply mesh_vol_mean_pos, Hex.
    + pose proof (tri_vol_nonneg points f). lra.
  - intros i. rewrite (row_sum_by_face _ _ _ i Hv).
    apply Rsum_map_zero. intros f Hf.
    apply stiffness_row_contrib, Hlen, Hf.
  - rewrite mat_sum_triplets by (apply triplets_in_shape with (1 := Hv)).
    rewrite concat_map, map_map, Rsum_concat_map.
    apply Rsum_map_zero. intros f Hf.
    apply stiffness_face_sum, Hlen, Hf.
Qed.

Lemma stiffness_rows_sum_to_zero_witness :
  valid_mesh flat_points flat_faces = true
  /\ Exists (fun f => tri_vol flat_points f <> 0) flat_faces
  /\ exists loc A B,
      computeAB_locals flat_points flat_faces = Ok loc
      /\ computeAB flat_points flat_faces = Ok (A, B)
      /\ Forall (fun v => 0 < v) (vol_sub loc)
      /\ (forall i, row_sum A i = 0)
      /\ mat_sum A = 0.
Proof.
  assert (Hex : Exists (fun f => tri_vol flat_points f <> 0) flat_faces).
  { apply Exists_cons_hd. rewrite flat_vol_0. lra. }
  split; [reflexivity|]. split; [exact Hex|].
  exact (stiffness_rows_sum_to_zero flat_points flat_faces eq_refl Hex).
Defined.

(** X2. For every valid mesh the row [i] of the mass matrix [B] sums to one
    sixth of the volumes (doubled areas, after the substitution for
    zero-area triangles) of the triangles at vertex [i], each counted as
    often as [i] occurs among its corners: a third of the area around the
    vertex. *)
Theorem mass_row_sums (points : list (list R)) (faces : list (list Z)) :
  valid_mesh points faces = true ->
  exists A B,
    computeAB points faces = Ok (A, B)
    /\ forall i,
        row_sum B i
        = Rsum (map (fun f => INR (occurrences f i) * eff_vol points faces f / 6)
                    faces).
Proof.
  intros Hv. eexists. eexists.
  split; [exact (computeAB_valid _ _ Hv)|].
  pose proof (valid_mesh_face_length _ _ Hv) as Hlen.
  rewrite Forall_forall in Hlen.
  intros i. rewrite (row_sum_by_face _ _ _ i Hv).
  apply Rsum_map_ext. intros f Hf.
  apply mass_row_contrib, Hlen, Hf.
Qed.

Lemma mass_row_sums_witness :
  valid_mesh cube_points cube_faces = true
  /\ exists A B,
      computeAB cube_points cube_faces = Ok (A, B)
      /\ forall i,
          row_sum B i
          = Rsum (map (fun f => INR (occurrences f i)
                                * eff_vol cube_points cube_faces f / 6)
                      cube_faces).
Proof.
  split; [reflexivity|].
  exact (mass_row_sums cube_points cube_faces eq_refl).
Defined.

(** ** Vertices that no face references *)

Lemma face_contrib_outside (f : list Z) (blk : list (list R)) (i j : Z) :
  length f = 3%nat -> ~ In i f \/ ~ In j f ->
  Rsum (map (hit i j) (face_triplets f blk)) = 0.
Proof.
  intros Hf Hout. apply Rsum_map_zero. intros [[r c] v] Ht.
  destruct (face_triplets_indices f blk _ Hf Ht) as [Hr Hc]. cbn [fst snd] in Hr, Hc.
  unfold hit.
  destruct (Z.eqb_spec r i) as [->|_]; [|reflexivity].
  destruct (Z.eqb_spec c j) as [->|_]; [|reflexivity].
  destruct Hout as [H|H]; contradiction.
Qed.

(** X3. For every valid mesh [A[i,j]] and [B[i,j]] are zero unless [i] and
    [j] are corners of a common face.  In particular a vertex that occurs in
    no face has an all-zero row and an all-zero column in both matrices (the
    singular-matrix case the module docstring warns about). *)
Theorem sparsity_pattern (points : list (list R)) (faces : list (list Z)) :
  valid_mesh points faces = true ->
  exists A B,
    computeAB points faces = Ok (A, B)
    /\ (forall i j,
          (forall f, In f faces -> ~ (In i f /\ In j f)) ->
          entry A i j = 0 /\ entry B i j = 0)
    /\ (forall v,
          (forall f, In f faces -> ~ In v f) ->
          forall j,
            entry A v j = 0 /\ entry A j v = 0
            /\ entry B v j = 0 /\ entry B j v = 0).
Proof.
  intros Hv. eexists. eexists.
  split; [exact (computeAB_valid _ _ Hv)|].
  pose proof (valid_mesh_face_length _ _ Hv) as Hlen.
  rewrite Forall_forall in Hlen. split.
  - intros i j Hno. rewrite !entry_concat_map.
    assert (Hout : forall f, In f faces -> ~ In i f \/ ~ In j f).
    { intros f Hf. specialize (Hno f Hf).
      destruct (in_dec Z.eq_dec i f) as [Hi|Hi]; [right; tauto | left; exact Hi]. }
    split; apply Rsum_map_zero; intros f Hf;
      apply face_contrib_outside; auto.
  - intros v Hun j. rewrite !entry_concat_map.
    repeat split; apply Rsum_map_zero; intros f Hf;
      apply face_contrib_outside; auto.
Qed.

Lemma sparsity_pattern_witness :
  valid_mesh cube_points cube_faces = true
  /\ exists A B,
      computeAB cube_points cube_faces = Ok (A, B)
      /\ (forall i j,
            (forall f, In f cube_faces -> ~ (In i f /\ In j f)) ->
            entry A i j = 0 /\ entry B i j = 0)
      /\ (forall v,
            (forall f, In f cube_faces -> ~ In v f) ->
            forall j,
              entry A v j = 0 /\ entry A j v = 0
              /\ entry B v j = 0 /\ entry B j v = 0).
Proof.
  split; [reflexivity|].
  exact (sparsity_pattern cube_points cube_faces eq_refl).
Defined.

(** ** The inferred shape *)

Lemma zmax_ext (l l' : list Z) :
  l <> [] -> (forall x, In x l <-> In x l') -> zmax l = zmax l'.
Proof.
  intros Hne Heq.
  assert (Hne' : l' <> []).
  { intros Hnil. destruct l as [|x l]; [congruence|].
    rewrite Hnil in Heq. apply (proj1 (Heq x)). simpl. auto. }
  pose proof (zmax_in l Hne) as H1. pose proof (zmax_in l' Hne') as H2.
  apply Heq in H1. apply Heq in H2.
  apply zmax_ge in H1. apply zmax_ge in H2. lia.
Qed.

Lemma in_concat_faces (faces : list (list Z)) (x : Z) :
  In x (concat faces) <-> exists f, In f faces /\ In x f.
Proof.
  rewrite in_concat. split; intros (f & H1 & H2); exists f; auto.
Qed.

Lemma valid_mesh_concat_nonempty points faces :
  valid_mesh points faces = true -> concat faces <> [].
Proof.
  intros Hv Hnil. destruct faces as [|f fs].
  - exact (valid_mesh_faces_nonempty _ _ Hv eq_refl).
  - destruct (valid_mesh_face _ _ f Hv (or_introl eq_refl)) as (i & j & k & -> & _).
    discriminate Hnil.
Qed.

(** X4. For every valid mesh both matrices are square of dimension
    [m + 1], where [m] is the largest vertex index that occurs in [faces];
    this is at most [N = len(points)], and it is [N] exactly when the last
    vertex [N - 1] occurs in some face. *)
Theorem shape_from_largest_index (points : list (list R)) (faces : list (list Z)) :
  valid_mesh points faces = true ->
  exists A B,
    computeAB points faces = Ok (A, B)
    /\ shape A = (max_index faces + 1, max_index faces + 1)%Z
    /\ shape B = shape A
    /\ (0 < max_index faces + 1 <= Z.of_nat (length points))%Z
    /\ ((max_index faces + 1 = Z.of_nat (length points))%Z
        <-> exists f, In f faces /\ In (Z.of_nat (length points) - 1)%Z f).
Proof.
  intros Hv. eexists. eexists.
  split; [exact (computeAB_valid _ _ Hv)|].
  pose proof (valid_mesh_face_length _ _ Hv) as Hlen.
  pose proof (valid_mesh_concat_nonempty _ _ Hv) as Hne.
  cbn [shape]. unfold max_index.
  assert (HI : zmax (I_new faces) = zmax (concat faces)).
  { symmetry. apply zmax_ext; [exact Hne|]. intros x.
    rewrite in_concat_faces. symmetry. apply in_I_new, Hlen. }
  assert (HJ : zmax (J_new faces) = zmax (concat faces)).
  { symmetry. apply zmax_ext; [exact Hne|]. intros x.
    rewrite in_concat_faces. symmetry. apply in_J_new, Hlen. }
  rewrite HI, HJ. split; [reflexivity|]. split; [reflexivity|].
  assert (Hrange : forall x, In x (concat faces) ->
                             (0 <= x < Z.of_nat (length points))%Z).
  { intros x Hx. apply in_concat_faces in Hx as (f & Hf & Hx).
    destruct (valid_mesh_face _ _ _ Hv Hf) as (i & j & k & -> & Hi & Hj & Hk).
    simpl in Hx. intuition lia. }
  pose proof (Hrange _ (zmax_in _ Hne)) as Hm.
  split; [lia|]. split.
  - intros Heq. apply in_concat_faces.
    replace (Z.of_nat (length points) - 1)%Z with (zmax (concat faces)) by lia.
    apply zmax_in, Hne.
  - intros Hex. apply in_concat_faces in Hex. apply zmax_ge in Hex. lia.
Qed.

Lemma shape_from_largest_index_witness :
  valid_mesh flat_points [[0; 1; 2]%Z] = true
  /\ exists A B,
      computeAB flat_points [[0; 1; 2]%Z] = Ok (A, B)
      /\ shape A = (max_index [[0; 1; 2]%Z] + 1, max_index [[0; 1; 2]%Z] + 1)%Z
      /\ shape B = shape A
      /\ (0 < max_index [[0; 1; 2]%Z] + 1 <= Z.of_nat (length flat_points))%Z
      /\ ((max_index [[0; 1; 2]%Z] + 1 = Z.of_nat (length flat_points))%Z
          <-> exists f, In f [[0; 1; 2]%Z]
                        /\ In (Z.of_nat (length flat_points) - 1)%Z f).
Proof.
  split; [reflexivity|].
  exact (shape_from_largest_index flat_points [[0; 1; 2]%Z] eq_refl).
Defined.

(** ** The guard against zero volumes *)

Lemma mesh_vol_mean_zero points faces :
  Forall (fun f => tri_vol points f = 0) faces ->
  mesh_vol_mean points faces = 0.
Proof.
  intros H. unfold mesh_vol_mean, np_mean.
  rewrite Rsum_map_zero by (rewrite Forall_forall in H; exact H).
  unfold Rdiv. ring.
Qed.

Lemma mesh_vol_mean_nonneg points faces : 0 <= mesh_vol_mean points faces.
Proof.
  unfold mesh_vol_mean, np_mean.
  assert (H : 0 <= Rsum (map (tri_vol points) faces)).
  { apply Rsum_nonneg, Forall_map, Forall_forall.
    intros x _. apply tri_vol_nonneg. }
  destruct faces as [|g gs].
  - cbn [map length INR]. rewrite Rsum_nil. unfold Rdiv. lra.
  - assert (Hn : 0 < INR (length (map (tri_vol points) (g :: gs)))).
    { apply lt_0_INR. rewrite length_map. simpl. lia. }
    unfold Rdiv. apply Rmult_le_pos; [exact H|].
    apply Rlt_le, Rinv_0_lt_compat, Hn.
Qed.

Lemma eff_vol_nonneg points faces f : 0 <= eff_vol points faces f.
Proof.
  unfold eff_vol. destruct (Req_dec_T (tri_vol points f) 0) as [_|_].
  - apply mesh_vol_mean_nonneg.
  - apply tri_vol_nonneg.
Qed.

Lemma eff_vol_pos points faces f :
  Exists (fun g => tri_vol points g <> 0) faces -> 0 < eff_vol points faces f.
Proof.
  intros Hex. unfold eff_vol.
  destruct (Req_dec_T (tri_vol points f) 0) as [_|Hne].
  - apply mesh_vol_mean_pos, Hex.
  - pose proof (tri_vol_nonneg points f). lra.
Qed.

(** X5. In a valid mesh the divisor of each triangle's local stiffness
    block, and the factor of its local mass block, is the substituted [vol]
    of that triangle.  With at least one triangle of non-zero area every
    substituted [vol] is positive, however many zero-area triangles there
    are, so [1.0/vol] never divides by zero; when every triangle has zero
    area the substitute is zero too and every divisor stays zero. *)
Theorem zero_divisor_guard (points : list (list R)) (faces : list (list Z)) :
  valid_mesh points faces = true ->
  exists loc,
    computeAB_locals points faces = Ok loc
    /\ length (vol_sub loc) = length faces
    /\ (forall t, (t < length faces)%nat ->
         nth t (localA loc) []
         = mscale (1 / nth t (vol_sub loc) 0)
             (msub (madd (mscale (tri_a0 points (nth t faces [])) tA00_unit)
                         (mscale (tri_a1 points (nth t faces [])) tA11_unit))
                   (mscale (tri_a0110 points (nth t faces [])) tA0110_unit))
         /\ nth t (localB loc) [] = mscale (nth t (vol_sub loc) 0) tB_unit)
    /\ (Exists (fun f => tri_vol points f <> 0) faces ->
        Forall (fun v => 0 < v) (vol_sub loc))
    /\ (Forall (fun f => tri_vol points f = 0) faces ->
        Forall (fun v => v = 0) (vol_sub loc)).
Proof.
  intros Hv. eexists.
  split; [exact (computeAB_locals_valid _ _ Hv)|].
  cbn [vol_sub localA localB]. split; [apply length_map|]. split; [|split].
  - intros t Ht. rewrite !(nth_map_in _ faces t []) by exact Ht.
    split; reflexivity.
  - intros Hex. apply Forall_map, Forall_forall. intros f _.
    apply eff_vol_pos, Hex.
  - intros Hall. apply Forall_map, Forall_forall. intros f Hf.
    rewrite Forall_forall in Hall.
    rewrite (eff_vol_degenerate _ _ _ (Hall f Hf)).
    apply mesh_vol_mean_zero, Forall_forall, Hall.
Qed.

Lemma zero_divisor_guard_witness :
  valid_mesh flat_points flat_faces = true
  /\ exists loc,
      computeAB_locals flat_points flat_faces = Ok loc
      /\ length (vol_sub loc) = length flat_faces
      /\ (forall t, (t < length flat_faces)%nat ->
           nth t (localA loc) []
           = mscale (1 / nth t (vol_sub loc) 0)
               (msub (madd (mscale (tri_a0 flat_points (nth t flat_faces []))
                                   tA00_unit)
                           (mscale (tri_a1 flat_points (nth t flat_faces []))
                                   tA11_unit))
                     (mscale (tri_a0110 flat_points (nth t flat_faces []))
                             tA0110_unit))
           /\ nth t (localB loc) [] = mscale (nth t (vol_sub loc) 0) tB_unit)
      /\ (Exists (fun f => tri_vol flat_points f <> 0) flat_faces ->
          Forall (fun v => 0 < v) (vol_sub loc))
      /\ (Forall (fun f => tri_vol flat_points f = 0) flat_faces ->
          Forall (fun v => v = 0) (vol_sub loc)).
Proof.
  split; [reflexivity|].
  exact (zero_divisor_guard flat_points flat_faces eq_refl).
Defined.

(** ** Signs of the mass matrix *)

Lemma mass_contrib_nonneg (f : list Z) (v : R) (i j : Z) :
  length f = 3%nat -> 0 <= v ->
  0 <= Rsum (map (hit i j) (face_triplets f (mass_block v))).
Proof.
  intros Hf Hv. destruct f as [|a [|b [|c [|? ?]]]]; try discriminate Hf.
  cbv [mass_block mscale tB_unit ones33 eye3 zipWith map face_triplets
       tile31 transpose concat app combine hit Rsum fold_left].
  case_eqbs; cbn [andb]; lra.
Qed.

Lemma mass_contrib_shared (f : list Z) (v : R) (i j : Z) :
  length f = 3%nat -> 0 <= v -> In i f -> In j f ->
  v / 24 <= Rsum (map (hit i j) (face_triplets f (mass_block v))).
Proof.
  intros Hf Hv Hi Hj. destruct f as [|a [|b [|c [|? ?]]]]; try discriminate Hf.
  cbv [mass_block mscale tB_unit ones33 eye3 zipWith map face_triplets
       tile31 transpose concat app combine hit Rsum fold_left].
  simpl in Hi, Hj.
  destruct (Z.eqb_spec a i), (Z.eqb_spec b i), (Z.eqb_spec c i),
           (Z.eqb_spec a j), (Z.eqb_spec b j), (Z.eqb_spec c j);
    cbn [andb]; try lra; exfalso; intuition.
Qed.

(** X6. For every valid mesh no entry of the mass matrix [B] is negative;
    and when some triangle of the mesh has non-zero area, [B[i,j]] is
    positive for every two corners [i], [j] (equal or not) of a common face,
    also when that face has zero area, by the substitution. *)
Theorem mass_matrix_signs (points : list (list R)) (faces : list (list Z)) :
  valid_mesh points faces = true ->
  exists A B,
    computeAB points faces = Ok (A, B)
    /\ (forall i j, 0 <= entry B i j)
    /\ (Exists (fun f => tri_vol points f <> 0) faces ->
        forall i j f, In f faces -> In i f -> In j f -> 0 < entry B i j).
Proof.
  intros Hv. eexists. eexists.
  split; [exact (computeAB_valid _ _ Hv)|].
  pose proof (valid_mesh_face_length _ _ Hv) as Hlen.
  rewrite Forall_forall in Hlen. split.
  - intros i j. rewrite entry_concat_map.
    apply Rsum_nonneg, Forall_map, Forall_forall. intros f Hf.
    apply mass_contrib_nonneg; [apply Hlen, Hf | apply eff_vol_nonneg].
  - intros Hex i j f Hf Hi Hj. rewrite entry_concat_map.
    apply Rsum_pos.
    + apply Forall_map, Forall_forall. intros g Hg.
      apply mass_contrib_nonneg; [apply Hlen, Hg | apply eff_vol_nonneg].
    + apply Exists_exists.
      exists (Rsum (map (hit i j) (face_triplets f (face_mass points faces f)))).
      split; [apply (in_map (fun g => Rsum (map (hit i j)
                  (face_triplets g (face_mass points faces g))))), Hf|].
      pose proof (eff_vol_pos points faces f Hex) as Hpos.
      pose proof (mass_contrib_shared f (eff_vol points faces f) i j
                    (Hlen f Hf) (Rlt_le _ _ Hpos) Hi Hj) as Hd.
      unfold face_mass. lra.
Qed.

Lemma mass_matrix_signs_witness :
  valid_mesh flat_points flat_faces = true
  /\ exists A B,
      computeAB flat_points flat_faces = Ok (A, B)
      /\ (forall i j, 0 <= entry B i j)
      /\ (Exists (fun f => tri_vol flat_points f <> 0) flat_faces ->
          forall i j f, In f flat_faces -> In i f -> In j f -> 0 < entry B i j).
Proof.
  split; [reflexivity|].
  exact (mass_matrix_signs flat_points flat_faces eq_refl).
Defined.

(** X7. In a valid mesh in which every triangle has zero area the mass
    matrix [B] is the zero matrix: the substituted mean is zero as well. *)
Theorem all_degenerate_mass_zero (points : list (list R)) (faces : list (list Z)) :
  valid_mesh points faces = true ->
  Forall (fun f => tri_vol points f = 0) faces ->
  exists A B,
    computeAB points faces = Ok (A, B)
    /\ forall i j, entry B i j = 0.
Proof.
  intros Hv Hall. eexists. eexists.
  split; [exact (computeAB_valid _ _ Hv)|].
  pose proof (valid_mesh_face_length _ _ Hv) as Hlen.
  rewrite Forall_forall in Hlen, Hall.
  intros i j. rewrite entry_concat_map.
  apply Rsum_map_zero. intros f Hf. unfold face_mass.
  rewrite (eff_vol_degenerate _ _ _ (Hall f Hf)).
  rewrite (mesh_vol_mean_zero points faces) by (apply Forall_forall, Hall).
  specialize (Hlen f Hf).
  destruct f as [|a [|b [|c [|? ?]]]]; try discriminate Hlen.
  cbv [mass_block mscale tB_unit ones33 eye3 zipWith map face_triplets
       tile31 transpose concat app combine hit Rsum fold_left].
  case_eqbs; cbn [andb]; lra.
Qed.

Lemma all_degenerate_mass_zero_witness :
  valid_mesh flat_points [[0; 1; 3]%Z] = true
  /\ Forall (fun f => tri_vol flat_points f = 0) [[0; 1; 3]%Z]
  /\ exists A B,
      computeAB flat_points [[0; 1; 3]%Z] = Ok (A, B)
      /\ forall i j, entry B i j = 0.
Proof.
  assert (Hall : Forall (fun f => tri_vol flat_points f = 0) [[0; 1; 3]%Z]).
  { repeat constructor. exact flat_vol_1. }
  split; [reflexivity|]. split; [exact Hall|].
  exact (all_degenerate_mass_zero flat_points [[0; 1; 3]%Z] eq_refl Hall).
Defined.

(** ** Inputs that [computeAB] rejects, in general *)

Lemma get_inv {X : Type} (l : list X) (n : nat) :
  (exists x, nth_error l n = Some x /\ get l n = Ok x)
  \/ ((length l <= n)%nat /\ get l n = Raise IndexError).
Proof.
  unfold get. destruct (nth_error l n) as [x|] eqn:E.
  - left. eauto.
  - right. split; [apply nth_error_None, E | reflexivity].
Qed.

Lemma mapM_inv {A B : Type} (f : A -> result B) (l : list A) :
  (exists ys, mapM f l = Ok ys /\ length ys = length l
              /\ forall x, In x l -> exists y, f x = Ok y /\ In y ys)
  \/ (exists x e, In x l /\ f x = Raise e /\ mapM f l = Raise e).
Proof.
  induction l as [|x l IH]; cbn [mapM].
  - left. exists []. repeat split. intros x [].
  - destruct (f x) as [y|e] eqn:Ex; cbn [bind].
    + destruct IH as [(ys & -> & Hlen & Hall)|(x' & e & Hin & Hx' & ->)]; cbn [bind].
      * left. exists (y :: ys). split; [reflexivity|]. split; [simpl; lia|].
        intros z [<-|Hz].
        -- exists y. split; [exact Ex | simpl; auto].
        -- destruct (Hall z Hz) as (y' & Hy' & Hin). exists y'. simpl. auto.
      * right. exists x', e. repeat split; simpl; auto.
    + right. exists x, e. repeat split; simpl; auto.
Qed.

Lemma column_inv {X : Type} (c : nat) (a : list (list X)) :
  (exists l, column c a = Ok l /\ is_2d a = true
             /\ forall r, In r a -> exists x, nth_error r c = Some x /\ In x l)
  \/ (column c a = Raise IndexError
      /\ (is_2d a = false \/ exists r, In r a /\ (length r <= c)%nat)).
Proof.
  unfold column. destruct (is_2d a) eqn:E2; [|right; auto].
  destruct (mapM_inv (fun r => get r c) a)
    as [(ys & -> & _ & Hall)|(r & e & Hin & Hr & ->)].
  - left. exists ys. repeat split. intros r Hr.
    destruct (Hall r Hr) as (y & Hy & Hin).
    destruct (get_inv r c) as [(x & Hx & Hg)|(_ & Hg)]; rewrite Hg in Hy.
    + injection Hy as <-. eauto.
    + discriminate Hy.
  - right. destruct (get_inv r c) as [(x & _ & Hg)|(Hlen & Hg)]; rewrite Hg in Hr.
    + discriminate Hr.
    + injection Hr as <-. split; [reflexivity|]. right. eauto.
Qed.

Lemma norm_index_inv (n : nat) (i : Z) :
  ((- Z.of_nat n <= i < Z.of_nat n)%Z /\ exists k, norm_index n i = Ok k /\ (k < n)%nat)
  \/ (~ (- Z.of_nat n <= i < Z.of_nat n)%Z /\ norm_index n i = Raise IndexError).
Proof.
  unfold norm_index.
  destruct (Z.leb_spec 0 i), (Z.ltb_spec i (Z.of_nat n)); cbn [andb].
  - left. split; [lia|]. eexists. split; [reflexivity | lia].
  - destruct (Z.leb_spec (- Z.of_nat n) i), (Z.ltb_spec i 0); cbn [andb];
      try (right; split; [lia | reflexivity]).
    lia.
  - destruct (Z.leb_spec (- Z.of_nat n) i), (Z.ltb_spec i 0); cbn [andb];
      try (right; split; [lia | reflexivity]); try lia.
    left. split; [lia|]. eexists. split; [reflexivity | lia].
  - destruct (Z.leb_spec (- Z.of_nat n) i), (Z.ltb_spec i 0); cbn [andb];
      try (right; split; [lia | reflexivity]); try lia.
Qed.

Lemma take_rows_inv {X : Type} (a : list (list X)) (idx : list Z) :
  (exists rows, take_rows a idx = Ok rows
                /\ Forall (fun i => (- Z.of_nat (length a) <= i < Z.of_nat (length a))%Z) idx)
  \/ take_rows a idx = Raise IndexError.
Proof.
  unfold take_rows. destruct (is_2d a); [|right; reflexivity].
  destruct (mapM_inv (fun i => n <- norm_index (length a) i ;; get a n) idx)
    as [(ys & -> & _ & Hall)|(i & e & Hin & Hi & ->)].
  - left. exists ys. split; [reflexivity|]. apply Forall_forall. intros i Hi.
    destruct (Hall i Hi) as (y & Hy & _).
    destruct (norm_index_inv (length a) i) as [(Hr & _)|(_ & Hn)]; [exact Hr|].
    rewrite Hn in Hy. discriminate Hy.
  - right. destruct (norm_index_inv (length a) i) as [(_ & k & Hn & Hk)|(_ & Hn)];
      rewrite Hn in Hi; cbn [bind] in Hi.
    + destruct (get_inv a k) as [(x & _ & Hg)|(Hlen & _)]; [|lia].
      rewrite Hg in Hi. discriminate Hi.
    + injection Hi as <-. reflexivity.
Qed.

(** The six lookups at the head of [computeAB] either all succeed or the
    call raises [IndexError]. *)
Lemma lookup_stage points faces :
  (exists f0 v1 f1 v2 f2 v3,
      column 0 faces = Ok f0 /\ take_rows points f0 = Ok v1
      /\ column 1 faces = Ok f1 /\ take_rows points f1 = Ok v2
      /\ column 2 faces = Ok f2 /\ take_rows points f2 = Ok v3)
  \/ computeAB points faces = Raise IndexError.
Proof.
  unfold computeAB, computeAB_locals. cbv zeta.
  destruct (column_inv 0 faces) as [(f0 & E0 & _)|(E0 & _)]; rewrite E0; cbn [bind];
    [|right; reflexivity].
  destruct (take_rows_inv points f0) as [(v1 & E1 & _)|E1]; rewrite E1; cbn [bind];
    [|right; reflexivity].
  destruct (column_inv 1 faces) as [(f1 & E2 & _)|(E2 & _)]; rewrite E2; cbn [bind];
    [|right; reflexivity].
  destruct (take_rows_inv points f1) as [(v2 & E3 & _)|E3]; rewrite E3; cbn [bind];
    [|right; reflexivity].
  destruct (column_inv 2 faces) as [(f2 & E4 & _)|(E4 & _)]; rewrite E4; cbn [bind];
    [|right; reflexivity].
  destruct (take_rows_inv points f2) as [(v3 & E5 & _)|E5]; rewrite E5; cbn [bind];
    [|right; reflexivity].
  left. exists f0, v1, f1, v2, f2, v3. repeat split; assumption.
Qed.

(** X8. Whatever [points] is, [computeAB] raises [IndexError] when [faces]
    is not a two-dimensional array of at least three columns: an empty list,
    rows of different lengths, or a row with fewer than three indices. *)
Theorem malformed_faces_index_error (points : list (list R)) (faces : list (list Z)) :
  is_2d faces = false \/ (exists f, In f faces /\ (length f < 3)%nat) ->
  computeAB points faces = Raise IndexError.
Proof.
  intros Hbad.
  destruct (lookup_stage points faces)
    as [(f0 & v1 & f1 & v2 & f2 & v3 & E0 & _ & _ & _ & E4 & _)|H]; [|exact H].
  exfalso.
  destruct (column_inv 2 faces) as [(l & _ & H2d & Hall)|(E & _)];
    [|rewrite E in E4; discriminate E4].
  destruct Hbad as [Hn|(f & Hf & Hlen)]; [congruence|].
  destruct (Hall f Hf) as (x & Hx & _).
  assert (nth_error f 2 <> None) by congruence.
  apply nth_error_Some in H. lia.
Qed.

Lemma malformed_faces_index_error_witness :
  (is_2d malformed_faces = false
   \/ exists f, In f malformed_faces /\ (length f < 3)%nat)
  /\ computeAB cube_points malformed_faces = Raise IndexError.
Proof.
  assert (H : is_2d malformed_faces = false
              \/ exists f, In f malformed_faces /\ (length f < 3)%nat)
    by (left; reflexivity).
  split; [exact H|].
  exact (malformed_faces_index_error cube_points malformed_faces H).
Defined.

(** X9. Whatever else the input holds, [computeAB] raises [IndexError] when
    one of the first three indices of some face lies outside
    [-N, N), N = len(points). *)
Theorem index_out_of_range_error (points : list (list R)) (faces : list (list Z))
  (f : list Z) (k : nat) (x : Z) :
  In f faces -> (k < 3)%nat -> nth_error f k = Some x ->
  ~ (- Z.of_nat (length points) <= x < Z.of_nat (length points))%Z ->
  computeAB points faces = Raise IndexError.
Proof.
  intros Hf Hk Hx Hout.
  destruct (lookup_stage points faces)
    as [(f0 & v1 & f1 & v2 & f2 & v3 & E0 & E1 & E2 & E3 & E4 & E5)|H]; [|exact H].
  exfalso.
  assert (Hstep : forall c fc vc,
             column c faces = Ok fc -> take_rows points fc = Ok vc -> k <> c).
  { intros c fc vc Ec Et ->.
    destruct (column_inv c faces) as [(l & El & _ & Hall)|(E & _)];
      [|rewrite E in Ec; discriminate Ec].
    rewrite El in Ec. injection Ec as ->.
    destruct (Hall f Hf) as (y & Hy & Hin).
    rewrite Hx in Hy. injection Hy as <-.
    destruct (take_rows_inv points fc) as [(rows & _ & Hrng)|E];
      [|rewrite E in Et; discriminate Et].
    rewrite Forall_forall in Hrng. exact (Hout (Hrng x Hin)). }
  pose proof (Hstep 0%nat _ _ E0 E1). pose proof (Hstep 1%nat _ _ E2 E3).
  pose proof (Hstep 2%nat _ _ E4 E5). lia.
Qed.

Lemma index_out_of_range_error_witness :
  In [0; 1; 4]%Z [[0; 1; 2]; [0; 1; 4]]%Z
  /\ (2 < 3)%nat
  /\ nth_error [0; 1; 4]%Z 2 = Some 4%Z
  /\ ~ (- Z.of_nat (length flat_points) <= 4 < Z.of_nat (length flat_points))%Z
  /\ computeAB flat_points [[0; 1; 2]; [0; 1; 4]]%Z = Raise IndexError.
Proof.
  assert (Hin : In [0; 1; 4]%Z [[0; 1; 2]; [0; 1; 4]]%Z) by (simpl; auto).
  assert (Hout : ~ (- Z.of_nat (length flat_points) <= 4
                    < Z.of_nat (length flat_points))%Z) by (simpl; lia).
  split; [exact Hin|]. split; [lia|]. split; [reflexivity|]. split; [exact Hout|].
  exact (index_out_of_range_error flat_points [[0; 1; 2]; [0; 1; 4]]%Z
           [0; 1; 4]%Z 2 4 Hin ltac:(lia) eq_refl Hout).
Defined.

Lemma lookup_mesh_wrap points faces :
  lookup_mesh points faces = true ->
  valid_mesh points (map (map (wrap_index (length points))) faces) = true.
Proof.
  unfold lookup_mesh, valid_mesh. intros H.
  apply andb_prop in H as [H Hf]. apply andb_prop in H as [Hne Hp].
  rewrite length_map, Hne, Hp. cbn [andb].
  apply forallb_forall. intros f' Hf'.
  apply in_map_iff in Hf' as (f & <- & Hin).
  rewrite forallb_forall in Hf. specialize (Hf f Hin).
  apply andb_prop in Hf as [Hlen Hidx].
  rewrite length_map, Hlen. cbn [andb].
  apply forallb_forall. intros x' Hx'.
  apply in_map_iff in Hx' as (x & <- & Hx).
  rewrite forallb_forall in Hidx. specialize (Hidx x Hx).
  apply andb_prop in Hidx as [H1 H2].
  apply Z.leb_le in H1. apply Z.ltb_lt in H2.
  unfold wrap_index. destruct (Z.ltb_spec x 0);
    apply andb_true_intro; split; [apply Z.leb_le | apply Z.ltb_lt
                                  | apply Z.leb_le | apply Z.ltb_lt]; lia.
Qed.

Lemma lookup_mesh_faces points faces :
  lookup_mesh points faces = true ->
  faces <> []
  /\ Forall (fun f => length f = 3%nat) faces
  /\ forall f x, In f faces -> In x f ->
       (- Z.of_nat (length points) <= x < Z.of_nat (length points))%Z.
Proof.
  unfold lookup_mesh. intros H.
  apply andb_prop in H as [H Hf]. apply andb_prop in H as [Hne _].
  rewrite forallb_forall in Hf. split; [|split].
  - intros ->. discriminate Hne.
  - apply Forall_forall. intros f Hin. specialize (Hf f Hin).
    apply andb_prop in Hf as [Hlen _]. apply Nat.eqb_eq, Hlen.
  - intros f x Hin Hx. specialize (Hf f Hin).
    apply andb_prop in Hf as [_ Hidx].
    rewrite forallb_forall in Hidx. specialize (Hidx x Hx).
    apply andb_prop in Hidx as [H1 H2].
    apply Z.leb_le in H1. apply Z.ltb_lt in H2. lia.
Qed.

Lemma norm_index_wrap (n : nat) (i : Z) :
  (- Z.of_nat n <= i < Z.of_nat n)%Z ->
  norm_index n (wrap_index n i) = norm_index n i.
Proof.
  intros Hi. unfold wrap_index. destruct (Z.ltb_spec i 0) as [Hneg|Hpos].
  - unfold norm_index.
    destruct (Z.leb_spec 0 (i + Z.of_nat n)), (Z.ltb_spec (i + Z.of_nat n) (Z.of_nat n));
      try lia.
    destruct (Z.leb_spec 0 i), (Z.ltb_spec i (Z.of_nat n)); try lia.
    destruct (Z.leb_spec (- Z.of_nat n) i), (Z.ltb_spec i 0); try lia.
    reflexivity.
  - reflexivity.
Qed.

Lemma mapM_ext_in {A B : Type} (f g : A -> result B) (l : list A) :
  (forall x, In x l -> f x = g x) -> mapM f l = mapM g l.
Proof.
  induction l as [|x l IH]; intros H; cbn [mapM]; [reflexivity|].
  rewrite (H x) by (simpl; auto).
  rewrite IH by (intros y Hy; apply H; simpl; auto). reflexivity.
Qed.

Lemma mapM_map {A B C : Type} (f : B -> result C) (g : A -> B) (l : list A) :
  mapM f (map g l) = mapM (fun x => f (g x)) l.
Proof.
  induction l as [|x l IH]; cbn [map mapM]; [reflexivity|].
  rewrite IH. reflexivity.
Qed.

Lemma take_rows_wrap {X : Type} (a : list (list X)) (idx : list Z) :
  Forall (fun i => (- Z.of_nat (length a) <= i < Z.of_nat (length a))%Z) idx ->
  take_rows a (map (wrap_index (length a)) idx) = take_rows a idx.
Proof.
  intros H. unfold take_rows. destruct (is_2d a); [|reflexivity].
  rewrite mapM_map. apply mapM_ext_in. intros i Hi.
  rewrite Forall_forall in H. rewrite (norm_index_wrap _ _ (H i Hi)). reflexivity.
Qed.

Lemma column_wrap (n c : nat) (faces : list (list Z)) :
  map (fun r => nth c r 0%Z) (map (map (wrap_index n)) faces)
  = map (wrap_index n) (map (fun r => nth c r 0%Z) faces).
Proof.
  rewrite !map_map. apply map_ext. intros r.
  change 0%Z with (wrap_index n 0) at 1. apply map_nth.
Qed.

(** Indices counted from the end select the same points: the local
    matrices are those of the mesh with the indices rewritten. *)
Lemma computeAB_locals_wrap points faces :
  lookup_mesh points faces = true ->
  computeAB_locals points faces
  = computeAB_locals points (map (map (wrap_index (length points))) faces).
Proof.
  intros Hl.
  destruct (lookup_mesh_faces _ _ Hl) as (Hne & Hlen & Hrng).
  pose proof (lookup_mesh_wrap _ _ Hl) as Hv.
  pose proof (valid_mesh_faces_nonempty _ _ Hv) as Hne'.
  pose proof (valid_mesh_face_length _ _ Hv) as Hlen'.
  unfold computeAB_locals. cbv zeta.
  rewrite (column_ok 3 0 0%Z faces Hne Hlen), (column_ok 3 1 0%Z faces Hne Hlen),
          (column_ok 3 2 0%Z faces Hne Hlen) by lia.
  rewrite (column_ok 3 0 0%Z _ Hne' Hlen'), (column_ok 3 1 0%Z _ Hne' Hlen'),
          (column_ok 3 2 0%Z _ Hne' Hlen') by lia.
  cbn [bind].
  rewrite !column_wrap, !take_rows_wrap, length_map.
  - reflexivity.
  - apply Forall_forall. intros x Hx. apply in_map_iff in Hx as (f & <- & Hf).
    assert (Hf3 : length f = 3%nat) by (rewrite Forall_forall in Hlen; auto).
    apply (Hrng f _ Hf), nth_In. lia.
  - apply Forall_forall. intros x Hx. apply in_map_iff in Hx as (f & <- & Hf).
    assert (Hf3 : length f = 3%nat) by (rewrite Forall_forall in Hlen; auto).
    apply (Hrng f _ Hf), nth_In. lia.
  - apply Forall_forall. intros x Hx. apply in_map_iff in Hx as (f & <- & Hf).
    assert (Hf3 : length f = 3%nat) by (rewrite Forall_forall in Hlen; auto).
    apply (Hrng f _ Hf), nth_In. lia.
Qed.

Lemma csr_matrix_negative (data : list R) (row col : list Z) (x : Z) :
  In x row -> (x < 0)%Z -> csr_matrix data row col = Raise ValueError.
Proof.
  intros Hin Hneg. unfold csr_matrix.
  destruct (negb _); [reflexivity|].
  destruct (Nat.eqb _ _); [reflexivity|].
  assert (H : existsb (fun i => (i <? 0)%Z) row = true).
  { apply existsb_exists. exists x. split; [exact Hin | apply Z.ltb_lt, Hneg]. }
  rewrite H. reflexivity.
Qed.

(** X10. A negative face index within [-N, 0) passes the point lookups
    (numpy counts it from the end) but is refused when the sparse matrix is
    built: on an otherwise well-formed mesh [computeAB] raises
    [ValueError]. *)
Theorem negative_index_value_error (points : list (list R)) (faces : list (list Z))
  (f : list Z) (x : Z) :
  lookup_mesh points faces = true ->
  In f faces -> In x f -> (x < 0)%Z ->
  computeAB points faces = Raise ValueError.
Proof.
  intros Hl Hf Hx Hneg.
  destruct (lookup_mesh_faces _ _ Hl) as (_ & Hlen & _).
  unfold computeAB.
  rewrite (computeAB_locals_wrap _ _ Hl).
  rewrite (computeAB_locals_valid _ _ (lookup_mesh_wrap _ _ Hl)). cbn [bind].
  fold (I_new faces).
  rewrite (csr_matrix_negative _ (I_new faces) _ x); [reflexivity | | exact Hneg].
  apply (in_I_new faces x Hlen). eauto.
Qed.

Lemma negative_index_value_error_witness :
  lookup_mesh flat_points [[0; 1; -2]%Z] = true
  /\ In [0; 1; -2]%Z [[0; 1; -2]%Z]
  /\ In (-2)%Z [0; 1; -2]%Z
  /\ (-2 < 0)%Z
  /\ computeAB flat_points [[0; 1; -2]%Z] = Raise ValueError.
Proof.
  assert (Hf : In [0; 1; -2]%Z [[0; 1; -2]%Z]) by (simpl; auto).
  assert (Hx : In (-2)%Z [0; 1; -2]%Z) by (simpl; auto).
  split; [reflexivity|]. split; [exact Hf|]. split; [exact Hx|]. split; [lia|].
  exact (negative_index_value_error flat_points [[0; 1; -2]%Z] [0; 1; -2]%Z (-2)
           eq_refl Hf Hx ltac:(lia)).
Defined.

Lemma faces_ok_spec (n : nat) (faces : list (list Z)) :
  faces_ok n faces = true ->
  faces <> []
  /\ Forall (fun f => length f = 3%nat) faces
  /\ forall k, (k < 3)%nat ->
       Forall (fun i => (0 <= i < Z.of_nat n)%Z) (map (fun r => nth k r 0%Z) faces).
Proof.
  unfold faces_ok. intros H. apply andb_prop in H as [Hne Hf].
  rewrite forallb_forall in Hf.
  assert (Hlen : Forall (fun f => length f = 3%nat) faces).
  { apply Forall_forall. intros f Hin. specialize (Hf f Hin).
    apply andb_prop in Hf as [Hlen _]. apply Nat.eqb_eq, Hlen. }
  split; [intros ->; discriminate Hne|]. split; [exact Hlen|].
  intros k Hk. apply Forall_forall. intros x Hx.
  apply in_map_iff in Hx as (f & <- & Hin).
  specialize (Hf f Hin). apply andb_prop in Hf as [Hl Hidx].
  apply Nat.eqb_eq in Hl.
  rewrite forallb_forall in Hidx.
  assert (Hnth : In (nth k f 0%Z) f) by (apply nth_In; lia).
  specialize (Hidx _ Hnth). apply andb_prop in Hidx as [H1 H2].
  apply Z.leb_le in H1. apply Z.ltb_lt in H2. lia.
Qed.

Lemma cross_row_width (a b : list R) :
  length a <> 3%nat -> cross_row a b = Raise ValueError.
Proof.
  intros H. destruct a as [|? [|? [|? [|? ?]]]]; try reflexivity.
  contradiction H. reflexivity.
Qed.

Lemma zipWith_length {A B C : Type} (f : A -> B -> C) (l1 : list A) (l2 : list B) :
  length l1 = length l2 -> length (zipWith f l1 l2) = length l1.
Proof.
  revert l2. induction l1 as [|x l1 IH]; intros [|y l2] H; simpl in *;
    try discriminate; [reflexivity|].
  f_equal. apply IH. lia.
Qed.

(** X11. When the rows of [points] do not have exactly three coordinates
    (all have [w] of them, [w <> 3]) and [faces] is a well-formed array of
    index triples, [computeAB] raises [ValueError]: the vector product and
    the sum along its rows are only defined for three coordinates. *)
Theorem points_width_value_error (points : list (list R)) (faces : list (list Z))
  (w : nat) :
  points <> [] ->
  Forall (fun p => length p = w) points ->
  w <> 3%nat ->
  faces_ok (length points) faces = true ->
  computeAB points faces = Raise ValueError.
Proof.
  intros Hpne Hpw Hw Hf.
  destruct (faces_ok_spec _ _ Hf) as (Hfne & Hflen & Hcol).
  unfold computeAB, computeAB_locals. cbv zeta.
  rewrite (column_ok 3 0 0%Z faces Hfne Hflen), (column_ok 3 1 0%Z faces Hfne Hflen),
          (column_ok 3 2 0%Z faces Hfne Hflen) by lia.
  cbn [bind].
  rewrite !(take_rows_ok w points _ Hpne Hpw) by (apply Hcol; lia).
  cbn [bind].
  destruct faces as [|f fs]; [congruence|].
  cbn [map ew2 zipWith np_cross combine mapM fst snd].
  rewrite cross_row_width; [reflexivity|].
  rewrite zipWith_length.
  - assert (Hin : In (nth (Z.to_nat (nth 1 f 0%Z)) points []) points).
    { apply nth_In. pose proof (Forall_inv (Hcol 1%nat ltac:(lia))) as H.
      simpl in H. lia. }
    rewrite Forall_forall in Hpw. rewrite (Hpw _ Hin). exact Hw.
  - rewrite Forall_forall in Hpw. rewrite !Hpw; [reflexivity | |];
      apply nth_In.
    + pose proof (Forall_inv (Hcol 0%nat ltac:(lia))) as H. simpl in H. lia.
    + pose proof (Forall_inv (Hcol 1%nat ltac:(lia))) as H. simpl in H. lia.
Qed.

Lemma points_width_value_error_witness :
  [[0; 0]; [1; 0]; [0; 1]] <> ([] : list (list R))
  /\ Forall (fun p => length p = 2%nat) [[0; 0]; [1; 0]; [0; 1]]
  /\ 2%nat <> 3%nat
  /\ faces_ok (length [[0; 0]; [1; 0]; [0; 1]]) [[0; 1; 2]%Z] = true
  /\ computeAB [[0; 0]; [1; 0]; [0; 1]] [[0; 1; 2]%Z] = Raise ValueError.
Proof.
  assert (Hne : [[0; 0]; [1; 0]; [0; 1]] <> ([] : list (list R))) by discriminate.
  assert (Hw : Forall (fun p => length p = 2%nat) [[0; 0]; [1; 0]; [0; 1]])
    by (repeat constructor).
  assert (H23 : 2%nat <> 3%nat) by lia.
  split; [exact Hne|]. split; [exact Hw|]. split; [exact H23|].
  split; [reflexivity|].
  exact (points_width_value_error [[0; 0]; [1; 0]; [0; 1]] [[0; 1; 2]%Z] 2
           Hne Hw H23 eq_refl).
Defined.

Lemma csr_matrix_length (data : list R) (row col : list Z) :
  length row <> length data -> csr_matrix data row col = Raise ValueError.
Proof.
  intros H. unfold csr_matrix.
  destruct (Nat.eqb_spec (length row) (length data)) as [E|_]; [contradiction|].
  reflexivity.
Qed.

Lemma I_new_length (w : nat) (faces : list (list Z)) :
  Forall (fun f => length f = w) faces ->
  length (I_new faces) = (3 * w * length faces)%nat.
Proof.
  intros H. unfold I_new. rewrite flatten_map.
  rewrite (length_concat_const _ (3 * w)%nat); [lia|].
  intros f Hf. rewrite Forall_forall in H. specialize (H f Hf).
  unfold tile31. cbn [concat]. rewrite !length_app, H. simpl. lia.
Qed.

(** [computeAB] reads only the first three columns of [faces] to build the
    local matrices. *)
Lemma computeAB_locals_firstn points faces (w : nat) :
  faces <> [] -> Forall (fun f => length f = w) faces -> (3 <= w)%nat ->
  computeAB_locals points faces
  = computeAB_locals points (map (firstn 3) faces).
Proof.
  intros Hne Hlen Hw.
  assert (Hne' : map (firstn 3) faces <> [])
    by (intros H; apply map_eq_nil in H; contradiction).
  assert (Hlen' : Forall (fun f => length f = 3%nat) (map (firstn 3) faces)).
  { apply Forall_map, Forall_forall. intros f Hf.
    rewrite Forall_forall in Hlen. rewrite length_firstn, (Hlen f Hf). lia. }
  assert (Hcol : forall c, (c < 3)%nat ->
            map (fun r => nth c r 0%Z) (map (firstn 3) faces)
            = map (fun r => nth c r 0%Z) faces).
  { intros c Hc. rewrite map_map. apply map_ext. intros r.
    rewrite <- (firstn_skipn 3 r) at 2.
    destruct (Nat.lt_ge_cases c (length (firstn 3 r))) as [Hlt|Hge].
    - rewrite app_nth1 by exact Hlt. reflexivity.
    - rewrite length_firstn in Hge.
      assert (Hr : (length r <= c)%nat) by lia.
      rewrite (firstn_skipn 3 r), !nth_overflow; try reflexivity; try exact Hr.
      rewrite length_firstn. lia. }
  unfold computeAB_locals. cbv zeta.
  rewrite (column_ok w 0 0%Z faces Hne Hlen), (column_ok w 1 0%Z faces Hne Hlen),
          (column_ok w 2 0%Z faces Hne Hlen) by lia.
  rewrite (column_ok 3 0 0%Z _ Hne' Hlen'), (column_ok 3 1 0%Z _ Hne' Hlen'),
          (column_ok 3 2 0%Z _ Hne' Hlen') by lia.
  rewrite !Hcol by lia. rewrite length_map. reflexivity.
Qed.

(** X12. A fourth (or further) column in [faces] is not ignored: the local
    matrices are built from the first three columns, but the index arrays
    are tiled from whole rows, and on an otherwise well-formed mesh the
    sparse constructor refuses the arrays of unequal length with
    [ValueError]. *)
Theorem extra_columns_value_error (points : list (list R)) (faces : list (list Z))
  (w : nat) :
  Forall (fun f => length f = w) faces ->
  (3 < w)%nat ->
  valid_mesh points (map (firstn 3) faces) = true ->
  computeAB points faces = Raise ValueError.
Proof.
  intros Hlen Hw Hv.
  assert (Hne : faces <> []).
  { intros ->. exact (valid_mesh_faces_nonempty _ _ Hv eq_refl). }
  unfold computeAB.
  rewrite (computeAB_locals_firstn points faces w Hne Hlen) by lia.
  rewrite (computeAB_locals_valid _ _ Hv). cbn [bind localA localB].
  fold (I_new faces).
  rewrite csr_matrix_length; [reflexivity|].
  rewrite (I_new_length w faces Hlen), flatten_map.
  rewrite (length_concat_const _ 9%nat)
    by (intros f _; apply is_sym33_length, stiffness_block_sym).
  rewrite length_map. destruct faces; [congruence|]. simpl length. nia.
Qed.

Lemma extra_columns_value_error_witness :
  Forall (fun f => length f = 4%nat) [[0; 1; 2; 3]%Z]
  /\ (3 < 4)%nat
  /\ valid_mesh flat_points (map (firstn 3) [[0; 1; 2; 3]%Z]) = true
  /\ computeAB flat_points [[0; 1; 2; 3]%Z] = Raise ValueError.
Proof.
  assert (Hlen : Forall (fun f => length f = 4%nat) [[0; 1; 2; 3]%Z])
    by (repeat constructor).
  split; [exact Hlen|]. split; [lia|]. split; [reflexivity|].
  exact (extra_columns_value_error flat_points [[0; 1; 2; 3]%Z] 4
           Hlen ltac:(lia) eq_refl).
Defined.

(** ** fem_laplacian: errors and the sentinel *)

(** X13. With five points or more [fem_laplacian] catches nothing: an
    exception of [computeAB] is raised as it is and the solver is not
    called, and an exception of the solver is raised as it is. *)
Theorem fem_laplacian_propagates
  (eigsh : csr -> nat -> csr -> which_mode -> result (list R * list (list R)))
  (points : list (list R)) (faces : list (list Z)) :
  (5 <= length points)%nat ->
  (forall e, computeAB points faces = Raise e ->
             fem_laplacian eigsh points faces = ([Call_computeAB], Raise e))
  /\ (forall A B e, computeAB points faces = Ok (A, B) ->
                    eigsh A 3%nat B SM = Raise e ->
                    fem_laplacian eigsh points faces
                    = ([Call_computeAB; Call_eigsh], Raise e)).
Proof.
  intros H. apply Nat.ltb_ge in H. unfold fem_laplacian. rewrite H. split.
  - intros e He. rewrite He. reflexivity.
  - intros A B e HAB He. rewrite HAB. unfold emit, io_bind. cbn [fst snd].
    rewrite He. reflexivity.
Qed.

Lemma fem_laplacian_propagates_witness :
  (5 <= length cube_points)%nat
  /\ computeAB cube_points malformed_faces = Raise IndexError
  /\ fem_laplacian constant_eigsh cube_points malformed_faces
     = ([Call_computeAB], Raise IndexError)
  /\ fem_laplacian failing_eigsh cube_points cube_faces
     = ([Call_computeAB; Call_eigsh], Raise SolverError).
Proof.
  assert (H5 : (5 <= length cube_points)%nat) by (simpl; lia).
  split; [exact H5|]. split; [reflexivity|]. split.
  - apply (proj1 (fem_laplacian_propagates constant_eigsh cube_points
                    malformed_faces H5)).
    reflexivity.
  - eapply (proj2 (fem_laplacian_propagates failing_eigsh cube_points
                     cube_faces H5)).
    + exact (computeAB_valid _ _ (eq_refl : valid_mesh cube_points cube_faces = true)).
    + reflexivity.
Defined.

(** X14. [fem_laplacian] returns the sentinel exactly when there are fewer
    than five points: with five or more the result is a list of floats or an
    exception, never the integer array. *)
Theorem sentinel_iff_small
  (eigsh : csr -> nat -> csr -> which_mode -> result (list R * list (list R)))
  (points : list (list R)) (faces : list (list Z)) :
  snd (fem_laplacian eigsh points faces) = Ok sentinel
  <-> (length points < 5)%nat.
Proof.
  split.
  - intros H. destruct (Nat.lt_ge_cases (length points) 5) as [Hlt|Hge]; [exact Hlt|].
    exfalso. unfold fem_laplacian in H.
    apply Nat.ltb_ge in Hge. rewrite Hge in H.
    unfold emit, io_bind, io_ret in H.
    destruct (computeAB points faces) as [[A B]|e]; cbn [fst snd] in H;
      [|discriminate H].
    destruct (eigsh A 3%nat B SM) as [[vals vecs]|e]; cbn [fst snd] in H;
      discriminate H.
  - intros H. rewrite (fem_laplacian_small eigsh points faces H). reflexivity.
Qed.

(** ** print_sparse_matrix *)

Lemma sapp_nil_r (s : string) : (s ++ "")%string = s.
Proof.
  induction s as [|c s IH]; simpl; [reflexivity|]. rewrite IH. reflexivity.
Qed.

Lemma sapp_assoc (s t u : string) : ((s ++ t) ++ u)%string = (s ++ t ++ u)%string.
Proof.
  induction s as [|c s IH]; simpl; [reflexivity|]. rewrite IH. reflexivity.
Qed.

Lemma sconcat_cons (x : string) (xs : list string) :
  String.concat "" (x :: xs) = (x ++ String.concat "" xs)%string.
Proof.
  destruct xs as [|y ys]; simpl; [symmetry; apply sapp_nil_r | reflexivity].
Qed.

Lemma last_char_snoc (s : string) (c : ascii) :
  last_char (s ++ String c EmptyString) = Some c.
Proof.
  induction s as [|d s IH]; simpl; [reflexivity|].
  rewrite IH. destruct (s ++ String c "")%string eqn:E; [|reflexivity].
  destruct s; discriminate E.
Qed.

Lemma cell_clears_softspace (format_2_4f : R -> string) (E : R) :
  sets_softspace (cell format_2_4f E) = false.
Proof.
  unfold cell. destruct (Req_dec_T E 0) as [_|_].
  - reflexivity.
  - unfold sets_softspace. rewrite last_char_snoc. reflexivity.
Qed.

Lemma print_cells (format_2_4f : R -> string) (Row : list R) (st : stdout) :
  softspace st = false ->
  fold_left (fun st E => print_item (cell format_2_4f E) st) Row st
  = mk_stdout (text st ++ String.concat "" (map (cell format_2_4f) Row)) false.
Proof.
  revert st. induction Row as [|E Row IH]; intros [t sp] Hsp; cbn [softspace] in Hsp;
    subst sp; cbn [fold_left map].
  - cbn [String.concat text]. rewrite sapp_nil_r. reflexivity.
  - rewrite IH by apply cell_clears_softspace.
    unfold print_item. cbn [text softspace].
    rewrite sconcat_cons, sapp_assoc. reflexivity.
Qed.

Lemma print_rows (format_2_4f : R -> string) (rows : list (list R)) (st : stdout) :
  softspace st = false ->
  fold_left
    (fun st Row =>
       print_newline
         (print_item "" (fold_left (fun st E => print_item (cell format_2_4f E) st)
                                   Row st)))
    rows st
  = mk_stdout (text st ++ String.concat "" (map (render_row format_2_4f) rows)) false.
Proof.
  revert st. induction rows as [|Row rows IH]; intros [t sp] Hsp; cbn [softspace] in Hsp;
    subst sp; cbn [fold_left map].
  - cbn [String.concat text]. rewrite sapp_nil_r. reflexivity.
  - rewrite (print_cells format_2_4f Row) by reflexivity.
    rewrite IH by reflexivity.
    unfold print_newline, print_item, render_row. cbn [text softspace].
    rewrite sconcat_cons, sapp_nil_r, !sapp_assoc. reflexivity.
Qed.

(** X15. [print_sparse_matrix] writes the heading, an empty line and then
    one line for each row of the matrix, each made of one cell for each
    column: [    0] and a tab for an entry that is zero, the four-decimal
    rendering and a tab for any other.  No soft space is ever inserted
    between the cells (each ends in a tab), only before the heading when the
    flag was set on entry, and the flag is clear afterwards. *)
Theorem print_sparse_matrix_renders (format_2_4f : R -> string) (M : csr)
  (st : stdout) :
  print_sparse_matrix format_2_4f M st
  = mk_stdout (text st ++ (if softspace st then " " else "")
               ++ render format_2_4f M)%string
              false.
Proof.
  unfold print_sparse_matrix. cbv zeta.
  rewrite print_rows by reflexivity.
  unfold print_newline, print_item, render. cbn [text softspace].
  destruct st as [t [|]]; cbn [text softspace];
    rewrite !sapp_assoc; reflexivity.
Qed.

Lemma cell_zero (format_2_4f : R -> string) :
  cell format_2_4f 0
  = String " " (String " " (String " " (String " "
      (String "0" (String tab EmptyString))))).
Proof.
  unfold cell. destruct (Req_dec_T 0 0) as [_|H]; [reflexivity|].
  contradiction H. reflexivity.
Qed.

(** ** Moving a mesh *)

Lemma valid_mesh_map_rows (g : list R -> list R) points faces :
  (forall p, length p = 3%nat -> length (g p) = 3%nat) ->
  valid_mesh points faces = true ->
  valid_mesh (map g points) faces = true.
Proof.
  intros Hg. unfold valid_mesh. intros H.
  apply andb_prop in H as [H Hf]. apply andb_prop in H as [Hne Hp].
  rewrite Hne, length_map, Hf, andb_true_r. cbn [andb].
  apply forallb_forall. intros p' Hp'.
  apply in_map_iff in Hp' as (p & <- & Hin).
  rewrite forallb_forall in Hp. specialize (Hp p Hin).
  apply Nat.eqb_eq in Hp. apply Nat.eqb_eq, Hg, Hp.
Qed.

Lemma vertex_map_rows (g : list R -> list R) (h : vec3 -> vec3) points (i : Z) :
  (forall x y z, g [x; y; z] = vec_list (h (x, y, z))) ->
  Forall (fun p => length p = 3%nat) points ->
  (0 <= i < Z.of_nat (length points))%Z ->
  vertex (map g points) i = h (vertex points i).
Proof.
  intros Hg Hlen Hi. unfold vertex.
  rewrite (nth_map_in g points (Z.to_nat i) []) by lia.
  destruct (point_row points i Hlen Hi) as (x & y & z & ->).
  rewrite Hg. destruct (h (x, y, z)) as [[hx hy] hz]. reflexivity.
Qed.

Lemma corner_map_rows (g : list R -> list R) (h : vec3 -> vec3) points faces f k :
  (forall x y z, g [x; y; z] = vec_list (h (x, y, z))) ->
  valid_mesh points faces = true -> In f faces -> (k < 3)%nat ->
  corner (map g points) f k = h (corner points f k).
Proof.
  intros Hg Hv Hf Hk. unfold corner.
  apply vertex_map_rows; [exact Hg | exact (valid_mesh_points _ _ Hv)|].
  exact (valid_mesh_index _ _ _ _ Hv Hf Hk).
Qed.

Lemma vsub_vadd (p q d : vec3) : vsub (vadd p d) (vadd q d) = vsub p q.
Proof.
  destruct p as [[px py] pz], q as [[qx qy] qz], d as [[dx dy] dz].
  unfold vsub, vadd. f_equal; [f_equal|]; ring.
Qed.

Lemma translate_row (d : vec3) (x y z : R) :
  zipWith Rplus [x; y; z] (vec_list d) = vec_list (vadd (x, y, z) d).
Proof. destruct d as [[dx dy] dz]. reflexivity. Qed.

Lemma translate_edges (d : vec3) points faces f :
  valid_mesh points faces = true -> In f faces ->
  e1 (translate d points) f = e1 points f
  /\ e2 (translate d points) f = e2 points f.
Proof.
  intros Hv Hf. unfold e1, e2, translate.
  rewrite !(corner_map_rows _ (fun p => vadd p d) points faces f _
              (translate_row d) Hv Hf) by lia.
  rewrite !vsub_vadd. split; reflexivity.
Qed.

Lemma mesh_vol_mean_ext points points' faces :
  (forall f, In f faces -> tri_vol points f = tri_vol points' f) ->
  mesh_vol_mean points faces = mesh_vol_mean points' faces.
Proof.
  intros H. unfold mesh_vol_mean, np_mean. rewrite !length_map.
  f_equal. apply Rsum_map_ext, H.
Qed.

Lemma eff_vol_ext points points' faces f :
  (forall g, In g faces -> tri_vol points g = tri_vol points' g) ->
  In f faces ->
  eff_vol points faces f = eff_vol points' faces f.
Proof.
  intros H Hf. unfold eff_vol.
  rewrite (mesh_vol_mean_ext points points' faces H), (H f Hf). reflexivity.
Qed.

(** The matrices depend on the points only through four scalars of each
    triangle. *)
Lemma computeAB_ext points points' faces :
  valid_mesh points faces = true ->
  valid_mesh points' faces = true ->
  (forall f, In f faces ->
     tri_vol points f = tri_vol points' f
     /\ tri_a0 points f = tri_a0 points' f
     /\ tri_a1 points f = tri_a1 points' f
     /\ tri_a0110 points f = tri_a0110 points' f) ->
  computeAB points faces = computeAB points' faces.
Proof.
  intros Hv Hv' H.
  assert (Hvol : forall g, In g faces -> tri_vol points g = tri_vol points' g)
    by (intros g Hg; apply (H g Hg)).
  rewrite (computeAB_valid _ _ Hv), (computeAB_valid _ _ Hv').
  do 2 f_equal; f_equal; f_equal; apply map_ext_in; intros f Hf;
    destruct (H f Hf) as (_ & H0 & H1 & H01);
    unfold face_stiffness, face_mass;
    rewrite (eff_vol_ext points points' faces f Hvol Hf);
    rewrite ?H0, ?H1, ?H01; reflexivity.
Qed.

(** X16. Moving every point of a valid mesh by one vector changes nothing:
    [computeAB] returns the same two matrices, since only the differences
    [v2 - v1] and [v3 - v1] of the corners are used. *)
Theorem translation_invariance (d : vec3) (points : list (list R))
  (faces : list (list Z)) :
  valid_mesh points faces = true ->
  computeAB (translate d points) faces = computeAB points faces.
Proof.
  intros Hv. apply computeAB_ext.
  - apply valid_mesh_map_rows; [|exact Hv].
    intros p Hp. destruct p as [|x [|y [|z [|? ?]]]]; try discriminate Hp.
    rewrite translate_row. destruct (vadd (x, y, z) d) as [[? ?] ?]. reflexivity.
  - exact Hv.
  - intros f Hf. destruct (translate_edges d points faces f Hv Hf) as [H1 H2].
    unfold tri_vol, tri_a0, tri_a1, tri_a0110. rewrite H1, H2.
    repeat split; reflexivity.
Qed.

Lemma translation_invariance_witness :
  valid_mesh cube_points cube_faces = true
  /\ computeAB (translate (1, 2, 3) cube_points) cube_faces
     = computeAB cube_points cube_faces.
Proof.
  split; [reflexivity|].
  exact (translation_invariance (1, 2, 3) cube_points cube_faces eq_refl).
Defined.

(** ** Scaling a mesh *)

Lemma scale_row (s x y z : R) :
  map (fun c => s * c) [x; y; z] = vec_list (vscale s (x, y, z)).
Proof. reflexivity. Qed.

Lemma vsub_vscale (s : R) (p q : vec3) :
  vsub (vscale s p) (vscale s q) = vscale s (vsub p q).
Proof.
  destruct p as [[px py] pz], q as [[qx qy] qz].
  unfold vsub, vscale. f_equal; [f_equal|]; ring.
Qed.

Lemma dot_vscale (s : R) (p q : vec3) :
  dot (vscale s p) (vscale s q) = s * s * dot p q.
Proof.
  destruct p as [[px py] pz], q as [[qx qy] qz]. unfold dot, vscale. ring.
Qed.

Lemma cross_vscale (s : R) (p q : vec3) :
  cross (vscale s p) (vscale s q) = vscale (s * s) (cross p q).
Proof.
  destruct p as [[px py] pz], q as [[qx qy] qz].
  unfold cross, vscale. f_equal; [f_equal|]; ring.
Qed.

Lemma dot_self_nonneg (p : vec3) : 0 <= dot p p.
Proof. destruct p as [[px py] pz]. unfold dot. nra. Qed.

Lemma norm_vscale (k : R) (p : vec3) : 0 <= k -> norm (vscale k p) = k * norm p.
Proof.
  intros Hk. unfold norm. rewrite dot_vscale.
  rewrite sqrt_mult by (try apply dot_self_nonneg; nra).
  rewrite sqrt_square by exact Hk. reflexivity.
Qed.

Lemma scale_edges (s : R) points faces f :
  valid_mesh points faces = true -> In f faces ->
  e1 (scale s points) f = vscale s (e1 points f)
  /\ e2 (scale s points) f = vscale s (e2 points f).
Proof.
  intros Hv Hf. unfold e1, e2, scale.
  rewrite !(corner_map_rows _ (vscale s) points faces f _ (scale_row s) Hv Hf) by lia.
  rewrite !vsub_vscale. split; reflexivity.
Qed.

Lemma scale_scalars (s : R) points faces f :
  valid_mesh points faces = true -> In f faces ->
  tri_vol (scale s points) f = s * s * tri_vol points f
  /\ tri_a0 (scale s points) f = s * s * tri_a0 points f
  /\ tri_a1 (scale s points) f = s * s * tri_a1 points f
  /\ tri_a0110 (scale s points) f = s * s * tri_a0110 points f.
Proof.
  intros Hv Hf. destruct (scale_edges s points faces f Hv Hf) as [H1 H2].
  unfold tri_vol, tri_a0, tri_a1, tri_a0110. rewrite H1, H2.
  rewrite cross_vscale, !dot_vscale, norm_vscale by nra.
  repeat split; reflexivity.
Qed.

Lemma Rsum_map_scale {A : Type} (k : R) (g : A -> R) (l : list A) :
  Rsum (map (fun x => k * g x) l) = k * Rsum (map g l).
Proof.
  induction l as [|x l IH]; cbn [map].
  - rewrite Rsum_nil. ring.
  - rewrite !Rsum_cons, IH. ring.
Qed.

Lemma scale_eff_vol (s : R) points faces f :
  valid_mesh points faces = true -> In f faces -> s <> 0 ->
  eff_vol (scale s points) faces f = s * s * eff_vol points faces f.
Proof.
  intros Hv Hf Hs.
  assert (Hmean : mesh_vol_mean (scale s points) faces
                  = s * s * mesh_vol_mean points faces).
  { unfold mesh_vol_mean, np_mean. rewrite !length_map.
    rewrite (Rsum_map_ext (tri_vol (scale s points))
               (fun g => s * s * tri_vol points g))
      by (intros g Hg; apply (scale_scalars s points faces g Hv Hg)).
    rewrite Rsum_map_scale. unfold Rdiv. ring. }
  destruct (scale_scalars s points faces f Hv Hf) as (Hvol & _).
  unfold eff_vol. rewrite Hvol, Hmean.
  destruct (Req_dec_T (tri_vol points f) 0) as [H0|Hn].
  - rewrite H0.
    destruct (Req_dec_T (s * s * 0) 0) as [_|H]; [reflexivity|].
    contradiction H. ring.
  - destruct (Req_dec_T (s * s * tri_vol points f) 0) as [H|_]; [|reflexivity].
    exfalso. apply Rmult_integral in H as [H|H]; [|contradiction].
    apply Rmult_integral in H as [H|H]; contradiction.
Qed.

Lemma stiffness_entry_scale (k v a0 a1 a0110 c0 c1 c2 : R) :
  k <> 0 -> v <> 0 ->
  1 / (k * v) * (k * a0 * c0 + k * a1 * c1 - k * a0110 * c2)
  = 1 / v * (a0 * c0 + a1 * c1 - a0110 * c2).
Proof. intros Hk Hv. field. auto. Qed.

Lemma stiffness_block_scale (k v a0 a1 a0110 : R) :
  k <> 0 -> v <> 0 ->
  stiffness_block (k * v) (k * a0) (k * a1) (k * a0110)
  = stiffness_block v a0 a1 a0110.
Proof.
  intros Hk Hv.
  cbv [stiffness_block mscale madd msub tA00_unit tA11_unit tA0110_unit
       zipWith map].
  rewrite !(stiffness_entry_scale k v a0 a1 a0110 _ _ _ Hk Hv). reflexivity.
Qed.

Lemma mass_contrib_scale (f : list Z) (k v : R) (i j : Z) :
  length f = 3%nat ->
  Rsum (map (hit i j) (face_triplets f (mass_block (k * v))))
  = k * Rsum (map (hit i j) (face_triplets f (mass_block v))).
Proof.
  intros Hf. destruct f as [|a [|b [|c [|? ?]]]]; try discriminate Hf.
  cbv [mass_block mscale tB_unit ones33 eye3 zipWith map face_triplets
       tile31 transpose concat app combine hit Rsum fold_left].
  case_eqbs; cbn [andb]; nra.
Qed.

(** X17. Multiplying every coordinate of a valid mesh by [s <> 0] leaves
    the stiffness matrix [A] unchanged and multiplies the mass matrix [B] by
    [s^2], entry for entry, provided some triangle has non-zero area (so
    that no triangle divides by zero). *)
Theorem scaling_law (s : R) (points : list (list R)) (faces : list (list Z)) :
  valid_mesh points faces = true ->
  s <> 0 ->
  Exists (fun f => tri_vol points f <> 0) faces ->
  exists A B A' B',
    computeAB points faces = Ok (A, B)
    /\ computeAB (scale s points) faces = Ok (A', B')
    /\ shape A' = shape A /\ shape B' = shape B
    /\ forall i j,
        entry A' i j = entry A i j
        /\ entry B' i j = s * s * entry B i j.
Proof.
  intros Hv Hs Hex.
  assert (Hv' : valid_mesh (scale s points) faces = true).
  { apply valid_mesh_map_rows; [|exact Hv]. intros p Hp.
    rewrite length_map. exact Hp. }
  pose proof (valid_mesh_face_length _ _ Hv) as Hlen.
  rewrite Forall_forall in Hlen.
  do 4 eexists.
  split; [exact (computeAB_valid _ _ Hv)|].
  split; [exact (computeAB_valid _ _ Hv')|].
  cbn [shape]. split; [reflexivity|]. split; [reflexivity|].
  intros i j. rewrite !entry_concat_map. split.
  - apply Rsum_map_ext. intros f Hf. unfold face_stiffness.
    destruct (scale_scalars s points faces f Hv Hf) as (_ & -> & -> & ->).
    rewrite (scale_eff_vol s points faces f Hv Hf Hs).
    rewrite stiffness_block_scale; [reflexivity | nra |].
    pose proof (eff_vol_pos points faces f Hex). lra.
  - rewrite <- Rsum_map_scale. apply Rsum_map_ext. intros f Hf.
    unfold face_mass. rewrite (scale_eff_vol s points faces f Hv Hf Hs).
    apply mass_contrib_scale, Hlen, Hf.
Qed.

Lemma scaling_law_witness :
  valid_mesh flat_points flat_faces = true
  /\ 2 <> 0
  /\ Exists (fun f => tri_vol flat_points f <> 0) flat_faces
  /\ exists A B A' B',
      computeAB flat_points flat_faces = Ok (A, B)
      /\ computeAB (scale 2 flat_points) flat_faces = Ok (A', B')
      /\ shape A' = shape A /\ shape B' = shape B
      /\ forall i j,
          entry A' i j = entry A i j
          /\ entry B' i j = 2 * 2 * entry B i j.
Proof.
  assert (H2 : 2 <> 0) by lra.
  assert (Hex : Exists (fun f => tri_vol flat_points f <> 0) flat_faces).
  { apply Exists_cons_hd. rewrite flat_vol_0. lra. }
  split; [reflexivity|]. split; [exact H2|]. split; [exact Hex|].
  exact (scaling_law 2 flat_points flat_faces eq_refl H2 Hex).
Defined.

(** ** The order of the faces *)

Lemma Rsum_perm (l l' : list R) : Permutation l l' -> Rsum l = Rsum l'.
Proof.
  induction 1 as [|x l l' _ IH|x y l|l l' l'' _ IH1 _ IH2].
  - reflexivity.
  - rewrite !Rsum_cons, IH. reflexivity.
  - rewrite !Rsum_cons. ring.
  - rewrite IH1. exact IH2.
Qed.

Lemma forallb_perm {A : Type} (p : A -> bool) (l l' : list A) :
  Permutation l l' -> forallb p l = true -> forallb p l' = true.
Proof.
  intros HP H. apply forallb_forall. intros x Hx.
  rewrite forallb_forall in H. apply H.
  apply Permutation_in with (l := l'); [apply Permutation_sym, HP | exact Hx].
Qed.

Lemma valid_mesh_perm points faces faces' :
  Permutation faces faces' ->
  valid_mesh points faces = true -> valid_mesh points faces' = true.
Proof.
  intros HP. unfold valid_mesh. intros H.
  apply andb_prop in H as [H Hf]. apply andb_prop in H as [Hne Hp].
  rewrite <- (Permutation_length HP), Hne, Hp. cbn [andb].
  exact (forallb_perm _ _ _ HP Hf).
Qed.

Lemma mesh_vol_mean_perm points faces faces' :
  Permutation faces faces' ->
  mesh_vol_mean points faces = mesh_vol_mean points faces'.
Proof.
  intros HP. unfold mesh_vol_mean, np_mean.
  rewrite !length_map, (Permutation_length HP).
  f_equal. apply Rsum_perm, Permutation_map, HP.
Qed.

(** X18. The matrices do not depend on the order of the faces: for a valid
    mesh, a rearranged list of the same faces gives matrices of the same
    shape and with the same entries. *)
Theorem face_order_invariance (points : list (list R))
  (faces faces' : list (list Z)) :
  valid_mesh points faces = true ->
  Permutation faces faces' ->
  exists A B A' B',
    computeAB points faces = Ok (A, B)
    /\ computeAB points faces' = Ok (A', B')
    /\ shape A' = shape A /\ shape B' = shape B
    /\ forall i j, entry A' i j = entry A i j /\ entry B' i j = entry B i j.
Proof.
  intros Hv HP.
  pose proof (valid_mesh_perm _ _ _ HP Hv) as Hv'.
  pose proof (valid_mesh_face_length _ _ Hv) as Hlen.
  pose proof (valid_mesh_face_length _ _ Hv') as Hlen'.
  assert (Heff : forall f, eff_vol points faces' f = eff_vol points faces f).
  { intros f. unfold eff_vol. rewrite (mesh_vol_mean_perm _ _ _ HP). reflexivity. }
  assert (Hrow : zmax (I_new faces') = zmax (I_new faces)).
  { apply zmax_ext.
    - intros Hnil. pose proof (valid_mesh_concat_nonempty _ _ Hv') as Hne.
      destruct (concat faces') as [|x l] eqn:E; [congruence|].
      assert (Hx : In x (I_new faces')).
      { apply (in_I_new _ _ Hlen'). apply in_concat_faces. rewrite E. simpl. auto. }
      rewrite Hnil in Hx. contradiction.
    - intros x. rewrite (in_I_new _ _ Hlen'), (in_I_new _ _ Hlen).
      split; intros (f & Hf & Hx); exists f; split; auto.
      + apply Permutation_in with (l := faces'); [apply Permutation_sym, HP | exact Hf].
      + apply Permutation_in with (l := faces); [exact HP | exact Hf]. }
  assert (Hcol : zmax (J_new faces') = zmax (J_new faces)).
  { apply zmax_ext.
    - intros Hnil. pose proof (valid_mesh_concat_nonempty _ _ Hv') as Hne.
      destruct (concat faces') as [|x l] eqn:E; [congruence|].
      assert (Hx : In x (J_new faces')).
      { apply (in_J_new _ _ Hlen'). apply in_concat_faces. rewrite E. simpl. auto. }
      rewrite Hnil in Hx. contradiction.
    - intros x. rewrite (in_J_new _ _ Hlen'), (in_J_new _ _ Hlen).
      split; intros (f & Hf & Hx); exists f; split; auto.
      + apply Permutation_in with (l := faces'); [apply Permutation_sym, HP | exact Hf].
      + apply Permutation_in with (l := faces); [exact HP | exact Hf]. }
  do 4 eexists.
  split; [exact (computeAB_valid _ _ Hv)|].
  split; [exact (computeAB_valid _ _ Hv')|].
  cbn [shape]. rewrite Hrow, Hcol. split; [reflexivity|]. split; [reflexivity|].
  intros i j. rewrite !entry_concat_map. split.
  - rewrite (Rsum_map_ext _
               (fun f => Rsum (map (hit i j)
                                   (face_triplets f (face_stiffness points faces f)))))
      by (intros f _; unfold face_stiffness; rewrite Heff; reflexivity).
    apply Rsum_perm, Permutation_map, Permutation_sym, HP.
  - rewrite (Rsum_map_ext _
               (fun f => Rsum (map (hit i j)
                                   (face_triplets f (face_mass points faces f)))))
      by (intros f _; unfold face_mass; rewrite Heff; reflexivity).
    apply Rsum_perm, Permutation_map, Permutation_sym, HP.
Qed.

Lemma face_order_invariance_witness :
  valid_mesh flat_points flat_faces = true
  /\ Permutation flat_faces [[0; 1; 3]; [0; 1; 2]]%Z
  /\ exists A B A' B',
      computeAB flat_points flat_faces = Ok (A, B)
      /\ computeAB flat_points [[0; 1; 3]; [0; 1; 2]]%Z = Ok (A', B')
      /\ shape A' = shape A /\ shape B' = shape B
      /\ forall i j, entry A' i j = entry A i j /\ entry B' i j = entry B i j.
Proof.
  assert (HP : Permutation flat_faces [[0; 1; 3]; [0; 1; 2]]%Z)
    by apply perm_swap.
  split; [reflexivity|]. split; [exact HP|].
  exact (face_order_invariance flat_points flat_faces _ eq_refl HP).
Defined.

(** ** The order of the corners of a triangle *)

Lemma stiffness_contrib_reorder (v a0 a1 a0110 : R) (a b c i j : Z) :
  let ref := Rsum (map (hit i j) (face_triplets [a; b; c]
                                    (stiffness_block v a0 a1 a0110))) in
  Rsum (map (hit i j) (face_triplets [a; c; b]
                         (stiffness_block v a1 a0 a0110))) = ref
  /\ Rsum (map (hit i j) (face_triplets [b; a; c]
                            (stiffness_block v (a0 + a1 - 2 * a0110) a1
                                             (a1 - a0110)))) = ref
  /\ Rsum (map (hit i j) (face_triplets [b; c; a]
                            (stiffness_block v a1 (a0 + a1 - 2 * a0110)
                                             (a1 - a0110)))) = ref
  /\ Rsum (map (hit i j) (face_triplets [c; a; b]
                            (stiffness_block v (a0 + a1 - 2 * a0110) a0
                                             (a0 - a0110)))) = ref
  /\ Rsum (map (hit i j) (face_triplets [c; b; a]
                            (stiffness_block v a0 (a0 + a1 - 2 * a0110)
                                             (a0 - a0110)))) = ref.
Proof.
  cbv [stiffness_block mscale madd msub tA00_unit tA11_unit tA0110_unit
       zipWith map face_triplets tile31 transpose concat app combine hit
       Rsum fold_left].
  set (w := 1 / v).
  repeat split; case_eqbs; cbn [andb]; nra.
Qed.

Lemma mass_contrib_reorder (v : R) (a b c i j : Z) (f' : list Z) :
  In f' (orderings a b c) ->
  Rsum (map (hit i j) (face_triplets f' (mass_block v)))
  = Rsum (map (hit i j) (face_triplets [a; b; c] (mass_block v))).
Proof.
  intros Hin. unfold orderings in Hin. simpl in Hin.
  destruct Hin as [<-|[<-|[<-|[<-|[<-|[<-|[]]]]]]];
    cbv [mass_block mscale tB_unit ones33 eye3 zipWith map face_triplets
         tile31 transpose concat app combine hit Rsum fold_left];
    case_eqbs; cbn [andb]; lra.
Qed.

Ltac corner_coordinates points a b c :=
  unfold tri_vol, tri_a0, tri_a1, tri_a0110, norm, e1, e2, corner; cbn [nth];
  generalize (vertex points a) (vertex points b) (vertex points c);
  intros [[?px ?py] ?pz] [[?qx ?qy] ?qz] [[?rx ?ry] ?rz];
  cbn [vsub cross dot];
  repeat split; try ring; f_equal; ring.

Lemma reorder_geometry_acb points (a b c : Z) :
  tri_vol points [a; c; b] = tri_vol points [a; b; c]
  /\ tri_a0 points [a; c; b] = tri_a1 points [a; b; c]
  /\ tri_a1 points [a; c; b] = tri_a0 points [a; b; c]
  /\ tri_a0110 points [a; c; b] = tri_a0110 points [a; b; c].
Proof. corner_coordinates points a b c. Qed.

Lemma reorder_geometry_bac points (a b c : Z) :
  tri_vol points [b; a; c] = tri_vol points [a; b; c]
  /\ tri_a0 points [b; a; c]
     = tri_a0 points [a; b; c] + tri_a1 points [a; b; c]
       - 2 * tri_a0110 points [a; b; c]
  /\ tri_a1 points [b; a; c] = tri_a1 points [a; b; c]
  /\ tri_a0110 points [b; a; c]
     = tri_a1 points [a; b; c] - tri_a0110 points [a; b; c].
Proof. corner_coordinates points a b c. Qed.

Lemma reorder_geometry_bca points (a b c : Z) :
  tri_vol points [b; c; a] = tri_vol points [a; b; c]
  /\ tri_a0 points [b; c; a] = tri_a1 points [a; b; c]
  /\ tri_a1 points [b; c; a]
     = tri_a0 points [a; b; c] + tri_a1 points [a; b; c]
       - 2 * tri_a0110 points [a; b; c]
  /\ tri_a0110 points [b; c; a]
     = tri_a1 points [a; b; c] - tri_a0110 points [a; b; c].
Proof. corner_coordinates points a b c. Qed.

Lemma reorder_geometry_cab points (a b c : Z) :
  tri_vol points [c; a; b] = tri_vol points [a; b; c]
  /\ tri_a0 points [c; a; b]
     = tri_a0 points [a; b; c] + tri_a1 points [a; b; c]
       - 2 * tri_a0110 points [a; b; c]
  /\ tri_a1 points [c; a; b] = tri_a0 points [a; b; c]
  /\ tri_a0110 points [c; a; b]
     = tri_a0 points [a; b; c] - tri_a0110 points [a; b; c].
Proof. corner_coordinates points a b c. Qed.

Lemma reorder_geometry_cba points (a b c : Z) :
  tri_vol points [c; b; a] = tri_vol points [a; b; c]
  /\ tri_a0 points [c; b; a] = tri_a0 points [a; b; c]
  /\ tri_a1 points [c; b; a]
     = tri_a0 points [a; b; c] + tri_a1 points [a; b; c]
       - 2 * tri_a0110 points [a; b; c]
  /\ tri_a0110 points [c; b; a]
     = tri_a0 points [a; b; c] - tri_a0110 points [a; b; c].
Proof. corner_coordinates points a b c. Qed.

Lemma reorder_vol points (a b c : Z) (f' : list Z) :
  In f' (orderings a b c) -> tri_vol points f' = tri_vol points [a; b; c].
Proof.
  intros Hin. unfold orderings in Hin. simpl in Hin.
  destruct Hin as [<-|[<-|[<-|[<-|[<-|[<-|[]]]]]]].
  - reflexivity.
  - apply reorder_geometry_acb.
  - apply reorder_geometry_bac.
  - apply reorder_geometry_bca.
  - apply reorder_geometry_cab.
  - apply reorder_geometry_cba.
Qed.

Lemma stiffness_reorder points (a b c i j : Z) (f' : list Z) (v : R) :
  In f' (orderings a b c) ->
  Rsum (map (hit i j)
            (face_triplets f' (stiffness_block v (tri_a0 points f')
                                 (tri_a1 points f') (tri_a0110 points f'))))
  = Rsum (map (hit i j)
              (face_triplets [a; b; c]
                 (stiffness_block v (tri_a0 points [a; b; c])
                    (tri_a1 points [a; b; c]) (tri_a0110 points [a; b; c])))).
Proof.
  intros Hin. unfold orderings in Hin. simpl in Hin.
  pose proof (stiffness_contrib_reorder v (tri_a0 points [a; b; c])
                (tri_a1 points [a; b; c]) (tri_a0110 points [a; b; c]) a b c i j)
    as (Hacb & Hbac & Hbca & Hcab & Hcba).
  destruct Hin as [<-|[<-|[<-|[<-|[<-|[<-|[]]]]]]].
  - reflexivity.
  - destruct (reorder_geometry_acb points a b c) as (_ & -> & -> & ->). exact Hacb.
  - destruct (reorder_geometry_bac points a b c) as (_ & -> & -> & ->). exact Hbac.
  - destruct (reorder_geometry_bca points a b c) as (_ & -> & -> & ->). exact Hbca.
  - destruct (reorder_geometry_cab points a b c) as (_ & -> & -> & ->). exact Hcab.
  - destruct (reorder_geometry_cba points a b c) as (_ & -> & -> & ->). exact Hcba.
Qed.

Lemma orderings_spec (a b c : Z) (f' : list Z) :
  In f' (orderings a b c) ->
  length f' = 3%nat /\ forall x, In x f' <-> In x [a; b; c].
Proof.
  intros Hin. unfold orderings in Hin. simpl in Hin.
  destruct Hin as [<-|[<-|[<-|[<-|[<-|[<-|[]]]]]]];
    (split; [reflexivity | intros x; simpl; intuition]).
Qed.

Lemma valid_mesh_replace points pre post (f f' : list Z) :
  length f' = 3%nat -> (forall x, In x f' -> In x f) ->
  valid_mesh points (pre ++ f :: post) = true ->
  valid_mesh points (pre ++ f' :: post) = true.
Proof.
  intros Hlen Hsub. unfold valid_mesh. intros H.
  apply andb_prop in H as [H Hf]. apply andb_prop in H as [_ Hp].
  rewrite Hp, length_app. cbn [length].
  replace (Nat.eqb (length pre + S (length post)) 0) with false
    by (symmetry; apply Nat.eqb_neq; lia).
  cbn [negb andb].
  rewrite forallb_app in Hf |- *. apply andb_prop in Hf as [Hpre Hmid].
  cbn [forallb] in Hmid |- *. apply andb_prop in Hmid as [Hf Hpost].
  rewrite Hpre, Hpost, andb_true_r. cbn [andb].
  apply andb_prop in Hf as [_ Hidx].
  rewrite Hlen. cbn [andb Nat.eqb].
  apply forallb_forall. intros x Hx.
  rewrite forallb_forall in Hidx. apply Hidx, Hsub, Hx.
Qed.

(** X19. The matrices do not depend on the order in which a triangle lists
    its corners: in a valid mesh, replacing the face [[a, b, c]] by any of
    its six orderings (a rotation or a change of orientation) gives matrices
    of the same shape and with the same entries. *)
Theorem corner_order_invariance (points : list (list R))
  (pre post : list (list Z)) (a b c : Z) (f' : list Z) :
  valid_mesh points (pre ++ [a; b; c] :: post) = true ->
  In f' (orderings a b c) ->
  exists A B A' B',
    computeAB points (pre ++ [a; b; c] :: post) = Ok (A, B)
    /\ computeAB points (pre ++ f' :: post) = Ok (A', B')
    /\ shape A' = shape A /\ shape B' = shape B
    /\ forall i j, entry A' i j = entry A i j /\ entry B' i j = entry B i j.
Proof.
  intros Hv Hin.
  destruct (orderings_spec a b c f' Hin) as [Hlen3 Hmem].
  set (faces := pre ++ [a; b; c] :: post) in *.
  set (faces' := pre ++ f' :: post).
  assert (Hv' : valid_mesh points faces' = true).
  { apply (valid_mesh_replace points pre post [a; b; c] f' Hlen3);
      [intros x Hx; apply Hmem, Hx | exact Hv]. }
  pose proof (valid_mesh_face_length _ _ Hv) as Hlen.
  pose proof (valid_mesh_face_length _ _ Hv') as Hlen'.
  pose proof (reorder_vol points a b c f' Hin) as Hvol.
  assert (Hmean : mesh_vol_mean points faces' = mesh_vol_mean points faces).
  { unfold mesh_vol_mean, np_mean, faces, faces'.
    rewrite !map_app. cbn [map]. rewrite Hvol, !length_app. reflexivity. }
  assert (Heff : forall g, eff_vol points faces' g = eff_vol points faces g).
  { intros g. unfold eff_vol. rewrite Hmean. reflexivity. }
  assert (Heff' : eff_vol points faces f' = eff_vol points faces [a; b; c]).
  { unfold eff_vol. rewrite Hvol. reflexivity. }
  assert (Hfaces : forall x, (exists g, In g faces' /\ In x g)
                             <-> (exists g, In g faces /\ In x g)).
  { intros x. unfold faces, faces'. split; intros (g & Hg & Hx);
      apply in_app_or in Hg as [Hg|[<-|Hg]].
    - exists g. split; [apply in_or_app; auto | exact Hx].
    - exists [a; b; c]. split; [apply in_or_app; simpl; auto | apply Hmem, Hx].
    - exists g. split; [apply in_or_app; simpl; auto | exact Hx].
    - exists g. split; [apply in_or_app; auto | exact Hx].
    - exists f'. split; [apply in_or_app; simpl; auto | apply Hmem, Hx].
    - exists g. split; [apply in_or_app; simpl; auto | exact Hx]. }
  assert (Hne : forall idx, (forall x, In x idx <-> exists g, In g faces' /\ In x g) ->
                            idx <> []).
  { intros idx Hidx Hnil.
    assert (Hx : In (nth 0 f' 0%Z) idx).
    { apply Hidx. exists f'. split; [unfold faces'; apply in_or_app; simpl; auto|].
      apply nth_In. lia. }
    rewrite Hnil in Hx. contradiction. }
  assert (Hrow : zmax (I_new faces') = zmax (I_new faces)).
  { apply zmax_ext; [apply Hne; intros x; apply in_I_new, Hlen'|].
    intros x. rewrite (in_I_new _ _ Hlen'), (in_I_new _ _ Hlen). apply Hfaces. }
  assert (Hcol : zmax (J_new faces') = zmax (J_new faces)).
  { apply zmax_ext; [apply Hne; intros x; apply in_J_new, Hlen'|].
    intros x. rewrite (in_J_new _ _ Hlen'), (in_J_new _ _ Hlen). apply Hfaces. }
  do 4 eexists.
  split; [exact (computeAB_valid _ _ Hv)|].
  split; [exact (computeAB_valid _ _ Hv')|].
  cbn [shape]. rewrite Hrow, Hcol. split; [reflexivity|]. split; [reflexivity|].
  intros i j. rewrite !entry_concat_map.
  unfold faces at 2 4, faces' at 2 4.
  rewrite !map_app. cbn [map]. rewrite !Rsum_app, !Rsum_cons.
  unfold face_stiffness, face_mass. rewrite !Heff, Heff'. split.
  - rewrite (stiffness_reorder points a b c i j f' _ Hin).
    f_equal; [|f_equal]; apply Rsum_map_ext; intros g _; rewrite Heff; reflexivity.
  - rewrite (mass_contrib_reorder _ a b c i j f' Hin).
    f_equal; [|f_equal]; apply Rsum_map_ext; intros g _; rewrite Heff; reflexivity.
Qed.

Lemma corner_order_invariance_witness :
  valid_mesh flat_points ([] ++ [0; 1; 2]%Z :: [[0; 1; 3]%Z]) = true
  /\ In [1; 2; 0]%Z (orderings 0 1 2)
  /\ exists A B A' B',
      computeAB flat_points ([] ++ [0; 1; 2]%Z :: [[0; 1; 3]%Z]) = Ok (A, B)
      /\ computeAB flat_points ([] ++ [1; 2; 0]%Z :: [[0; 1; 3]%Z]) = Ok (A', B')
      /\ shape A' = shape A /\ shape B' = shape B
      /\ forall i j, entry A' i j = entry A i j /\ entry B' i j = entry B i j.
Proof.
  assert (Hin : In [1; 2; 0]%Z (orderings 0 1 2)) by (simpl; auto 8).
  split; [reflexivity|]. split; [exact Hin|].
  exact (corner_order_invariance flat_points [] [[0; 1; 3]%Z] 0 1 2 [1; 2; 0]%Z
           eq_refl Hin).
Defined.

(** ** The total mass, in general *)

(** X20. For every valid mesh the entries of the mass matrix [B] sum to the
    total area of the mesh plus half the mean volume for each zero-area
    triangle. *)
Theorem total_mass_excess (points : list (list R)) (faces : list (list Z)) :
  valid_mesh points faces = true ->
  exists A B,
    computeAB points faces = Ok (A, B)
    /\ mat_sum B
       = total_area points faces
         + Rsum (map (fun f => if Req_dec_T (tri_vol points f) 0
                               then mesh_vol_mean points faces / 2
                               else 0)
                     faces).
Proof.
  intros Hv. eexists. eexists.
  split; [exact (computeAB_valid _ _ Hv)|].
  rewrite (mat_sum_mass _ _ Hv). unfold total_area, tri_area.
  rewrite <- Rsum_map_plus. apply Rsum_map_ext. intros f _.
  unfold eff_vol. destruct (Req_dec_T (tri_vol points f) 0) as [->|_]; lra.
Qed.

Lemma total_mass_excess_witness :
  valid_mesh flat_points flat_faces = true
  /\ exists A B,
      computeAB flat_points flat_faces = Ok (A, B)
      /\ mat_sum B
         = total_area flat_points flat_faces
           + Rsum (map (fun f => if Req_dec_T (tri_vol flat_points f) 0
                                 then mesh_vol_mean flat_points flat_faces / 2
                                 else 0)
                       flat_faces).
Proof.
  split; [reflexivity|].
  exact (total_mass_excess flat_points flat_faces eq_refl).
Defined.
